(** * WeCrawler: the crawl engine of package [webcrawler]

    A shallow embedding of [webcrawler] (type [Crawler] and its methods
    [IsProductURL], [Fetch], [ParseLinks], [CrawlDomain], [RunCrawler], and
    the helpers [resolveURL] and [isSameDomain]) together with the
    properties of the engine.

    Layout: the model comes first (library interface, leaf functions, the
    traversal loop, the goroutine interleaving), then a small concrete web
    to run the model on and the vocabulary of the properties, then the
    theorems, then runs of the model on the small web. Line numbers are
    those of the source file of the package. *)

From Stdlib Require Import ZArith Lia Ascii String.
From stdpp Require Import base option list strings gmap.

Local Open Scope Z_scope.

(** ** Go values *)

(** Go's [(T, error)] pair, of which exactly one side is meaningful. *)
Inductive result (A : Type) : Type :=
| Ok (a : A)
| Err (msg : string).
Arguments Ok {A} a.
Arguments Err {A} msg.

(** [*http.Response] as far as [Fetch] reads it. *)
Record Response : Type := { StatusCode : Z; Body : string }.

Definition StatusOK : Z := 200.

(** ** The libraries the package calls

    [net/http], [net/url] and [goquery] are not part of the repository.
    They are taken as an interface; every theorem holds for every
    implementation of it.  The network is a state [World] that each
    [client.Get] reads and changes. *)
Class Library : Type := {
  World : Type;
  URL : Type;
  Document : Type;
  Selection : Type;
  (** [client.Get(link)] with the 10 s timeout *)
  http_Get : World -> string -> result Response * World;
  (** [url.Parse] *)
  url_Parse : string -> result URL;
  (** field [Host] of [url.URL] *)
  Host : URL -> string;
  (** [base.ResolveReference(ref)] *)
  ResolveReference : URL -> URL -> URL;
  (** [u.String()] *)
  URL_String : URL -> string;
  (** [goquery.NewDocumentFromReader] *)
  NewDocumentFromReader : string -> result Document;
  (** [doc.Html()], whose error [Fetch] drops *)
  Html : Document -> string;
  (** [doc.Find("a[href]")], in document order *)
  Find_a_href : Document -> list Selection;
  (** [s.Attr("href")]: the value when the attribute exists *)
  Attr_href : Selection -> option string;
  (** [fmt.Errorf("failed to fetch %s: HTTP %d", link, code).Error()] *)
  fetch_status_msg : string -> Z -> string
}.

(** ** Package [regexp], for the patterns the crawler compiles

    [`/product/|/item/|/p/|/dp/`] is an alternation of literals: [/] is an
    ordinary character in Go's syntax. *)
Module regexp.

Inductive Regexp : Type :=
| Literal (s : string)
| Alternate (r1 r2 : Regexp).

(** The language of a pattern. *)
Fixpoint denotes (r : Regexp) (s : string) : Prop :=
  match r with
  | Literal l => s = l
  | Alternate r1 r2 => denotes r1 s \/ denotes r2 s
  end.

(** A match that starts at the first byte of [s]. *)
Fixpoint match_here (r : Regexp) (s : string) : bool :=
  match r with
  | Literal l => String.prefix l s
  | Alternate r1 r2 => match_here r1 s || match_here r2 s
  end.

(** [re.MatchString(s)]: does [s] contain any match of [re]?  The search is
    not anchored. *)
Fixpoint MatchString (r : Regexp) (s : string) : bool :=
  match_here r s ||
  match s with
  | EmptyString => false
  | String _ rest => MatchString r rest
  end.

End regexp.

(** ** Leaf functions of the package *)

Section Leaves.
Context {L : Library}.

(** [regexp.MustCompile(`/product/|/item/|/p/|/dp/`)] *)
Definition productRegex : regexp.Regexp :=
  regexp.Alternate (regexp.Literal "/product/")
    (regexp.Alternate (regexp.Literal "/item/")
       (regexp.Alternate (regexp.Literal "/p/") (regexp.Literal "/dp/"))).

(** [IsProductURL]: the receiver is not read. *)
Definition IsProductURL (link : string) : bool :=
  regexp.MatchString productRegex link.

(** [Fetch] *)
Definition Fetch (w : World) (link : string) : result string * World :=
  let '(r, w') := http_Get w link in
  match r with
  | Err e => (Err e, w')
  | Ok resp =>
      if bool_decide (StatusCode resp ≠ StatusOK)
      then (Err (fetch_status_msg link (StatusCode resp)), w')
      else match NewDocumentFromReader (Body resp) with
           | Err e => (Err e, w')
           | Ok body => (Ok (Html body), w')
           end
  end.

(** [resolveURL] *)
Definition resolveURL (baseURL href : string) : string :=
  match url_Parse baseURL with
  | Err _ => ""
  | Ok parsedBase =>
      match url_Parse href with
      | Err _ => ""
      | Ok parsedHref => URL_String (ResolveReference parsedBase parsedHref)
      end
  end.

(** [isSameDomain]: [==] on Go strings compares bytes. *)
Definition isSameDomain (baseURL href : string) : bool :=
  match url_Parse baseURL with
  | Err _ => false
  | Ok baseDomain =>
      match url_Parse href with
      | Err _ => false
      | Ok hrefDomain => bool_decide (Host baseDomain = Host hrefDomain)
      end
  end.

(** The callback that [ParseLinks] hands to [Each]: one anchor, the slice
    [links] so far. *)
Definition ParseLinks_each (baseURL : string) (links : list string)
    (s : Selection) : list string :=
  match Attr_href s with
  | Some href =>
      let absoluteURL := resolveURL baseURL href in
      if isSameDomain baseURL absoluteURL
      then links ++ [absoluteURL]
      else links
  | None => links
  end.

(** [ParseLinks] *)
Definition ParseLinks (html baseURL : string) : result (list string) :=
  match NewDocumentFromReader html with
  | Err e => Err e
  | Ok doc => Ok (foldl (ParseLinks_each baseURL) [] (Find_a_href doc))
  end.

End Leaves.

(** ** The crawler's state *)

(** A channel of [struct{}] made by [make(chan struct{}, size)]: the
    elements carry nothing, so the buffer is its length. *)
Record chan : Type := { chan_cap : nat; chan_len : nat }.

(** [make] panics on a negative size. *)
Definition make_chan (size : Z) : option chan :=
  if bool_decide (size < 0) then None
  else Some {| chan_cap := Z.to_nat size; chan_len := 0 |}.

(** A send blocks while the buffer is full; with capacity 0 it waits for a
    receiver. [None] is a goroutine parked on the channel. *)
Definition chan_send (ch : chan) : option chan :=
  if bool_decide (chan_len ch < chan_cap ch)%nat
  then Some {| chan_cap := chan_cap ch; chan_len := S (chan_len ch) |}
  else None.

(** A receive blocks while the buffer is empty. *)
Definition chan_recv (ch : chan) : option chan :=
  match chan_len ch with
  | O => None
  | S n => Some {| chan_cap := chan_cap ch; chan_len := n |}
  end.

(** Type [Crawler]. The mutex [mu] guards the single statement that
    appends to [ProductURLs]; that statement is one atomic step below, so
    the lock needs no field. [RateLimit] is a [time.Duration]. *)
Record Crawler : Type := {
  Domains : list string;
  RateLimit : Z;
  Concurrency : Z;
  ProductURLs : gmap string (list string);
  semaphore : chan
}.

(** [CreateNewCrawler]; [None] is the panic of [make]. *)
Definition CreateNewCrawler (domains : list string) (rateLimit : Z)
    (concurrency : Z) : option Crawler :=
  ch ← make_chan concurrency;
  Some {| Domains := domains;
          RateLimit := rateLimit;
          Concurrency := concurrency;
          ProductURLs := ∅;
          semaphore := ch |}.

(** The lines [log.Printf] writes in [CrawlDomain]. *)
Inductive log_line : Type :=
| Crawling (url : string)
| ErrorFetching (url err : string)
| ErrorParsing (url err : string).

(** The calls a traversal makes, in program order. *)
Inductive event : Type :=
| EvSend                            (** [c.semaphore <- struct{}{}] *)
| EvRecv                            (** [<-c.semaphore] *)
| EvLog (line : log_line)           (** [log.Printf] *)
| EvGet (link : string)             (** [client.Get(link)] inside [Fetch] *)
| EvParsed (links : list string)    (** [c.ParseLinks] returned [links] *)
| EvSleep (d : Z).                  (** [time.Sleep(c.RateLimit)] *)

Section Traversal.
Context {L : Library}.

(** Everything the goroutines share: the crawler behind the pointer [c],
    the network, and the record of what has happened. *)
Record Shared : Type := {
  crawler : Crawler;
  world : World;
  trace : list event
}.

(** The locals of one call of [CrawlDomain]. [visited] only ever stores
    [true]; a missing key reads as [false]. *)
Record Frame : Type := {
  domain : string;
  baseURL : string;
  visited : gmap string bool;
  toVisit : list string
}.

(** [visited[link]] *)
Definition visited_get (f : Frame) (link : string) : bool :=
  default false (visited f !! link).

Definition emit (s : Shared) (e : event) : Shared :=
  {| crawler := crawler s; world := world s; trace := trace s ++ [e] |}.

Definition set_semaphore (s : Shared) (ch : chan) : Shared :=
  {| crawler := {| Domains := Domains (crawler s);
                   RateLimit := RateLimit (crawler s);
                   Concurrency := Concurrency (crawler s);
                   ProductURLs := ProductURLs (crawler s);
                   semaphore := ch |};
     world := world s; trace := trace s |}.

Definition set_ProductURLs (s : Shared) (m : gmap string (list string)) : Shared :=
  {| crawler := {| Domains := Domains (crawler s);
                   RateLimit := RateLimit (crawler s);
                   Concurrency := Concurrency (crawler s);
                   ProductURLs := m;
                   semaphore := semaphore (crawler s) |};
     world := world s; trace := trace s |}.

Definition set_world (s : Shared) (w : World) : Shared :=
  {| crawler := crawler s; world := w; trace := trace s |}.

(** Line 96: [c.semaphore <- struct{}{}]. *)
Definition acquire (s : Shared) : option Shared :=
  ch ← chan_send (semaphore (crawler s));
  Some (emit (set_semaphore s ch) EvSend).

(** Lines 101, 110, 117, 131: [<-c.semaphore]. *)
Definition release (s : Shared) : option Shared :=
  ch ← chan_recv (semaphore (crawler s));
  Some (emit (set_semaphore s ch) EvRecv).

(** Lines 97 to 104: take the head of [toVisit]; an address seen before
    gives [None], a new one is marked and returned. An empty [toVisit]
    cannot reach these lines (the loop test), the frame is left as it is. *)
Definition pop_check (f : Frame) : Frame * option string :=
  match toVisit f with
  | [] => (f, None)
  | currentURL :: rest =>
      if visited_get f currentURL
      then ({| domain := domain f; baseURL := baseURL f;
               visited := visited f; toVisit := rest |}, None)
      else ({| domain := domain f; baseURL := baseURL f;
               visited := <[currentURL := true]> (visited f);
               toVisit := rest |}, Some currentURL)
  end.

(** [c.Fetch(currentURL)] on the shared network. *)
Definition do_Fetch (s : Shared) (link : string) : result string * Shared :=
  let '(r, w) := Fetch (world s) link in
  (r, set_world (emit s (EvGet link)) w).

(** Lines 106 to 119: log, fetch, parse against the root address. [None]
    is one of the two [continue] branches. *)
Definition fetch_parse (s : Shared) (f : Frame) (currentURL : string)
    : Shared * option (list string) :=
  let s := emit s (EvLog (Crawling currentURL)) in
  let '(r, s) := do_Fetch s currentURL in
  match r with
  | Err e => (emit s (EvLog (ErrorFetching currentURL e)), None)
  | Ok html =>
      match ParseLinks html (baseURL f) with
      | Err e => (emit s (EvLog (ErrorParsing currentURL e)), None)
      | Ok links => (emit s (EvParsed links), Some links)
      end
  end.

(** Lines 123 to 125, under [c.mu]. *)
Definition record_product (s : Shared) (dom link : string) : Shared :=
  let m := ProductURLs (crawler s) in
  set_ProductURLs s (<[dom := default [] (m !! dom) ++ [link]]> m).

(** Line 127 *)
Definition push (f : Frame) (link : string) : Frame :=
  {| domain := domain f; baseURL := baseURL f;
     visited := visited f; toVisit := toVisit f ++ [link] |}.

(** Lines 122 to 128: the body of [for _, link := range links]. *)
Definition process_link (sf : Shared * Frame) (link : string) : Shared * Frame :=
  let '(s, f) := sf in
  if IsProductURL link then (record_product s (domain f) link, f)
  else if negb (visited_get f link) then (s, push f link)
  else (s, f).

(** Line 130 *)
Definition sleep (s : Shared) : Shared :=
  emit s (EvSleep (RateLimit (crawler s))).

(** One turn of the loop of [CrawlDomain], lines 96 to 131. [None]: the
    goroutine is parked on the semaphore. *)
Definition iteration (s : Shared) (f : Frame) : option (Shared * Frame) :=
  s ← acquire s;
  let '(f, current) := pop_check f in
  match current with
  | None => s ← release s; Some (s, f)
  | Some currentURL =>
      let '(s, r) := fetch_parse s f currentURL in
      match r with
      | None => s ← release s; Some (s, f)
      | Some links =>
          let '(s, f) := foldl process_link (s, f) links in
          s ← release (sleep s); Some (s, f)
      end
  end.

(** How a call ends, as far as [fuel] turns show. *)
Inductive outcome : Type :=
| Returned (s : Shared) (f : Frame)   (** [toVisit] ran empty *)
| Parked (s : Shared) (f : Frame)     (** blocked on the semaphore *)
| OutOfFuel (s : Shared) (f : Frame).

(** [for len(toVisit) > 0 { ... }] *)
Fixpoint CrawlDomain_loop (fuel : nat) (s : Shared) (f : Frame) : outcome :=
  match toVisit f with
  | [] => Returned s f
  | _ :: _ =>
      match fuel with
      | O => OutOfFuel s f
      | S fuel =>
          match iteration s f with
          | None => Parked s f
          | Some (s', f') => CrawlDomain_loop fuel s' f'
          end
      end
  end.

(** Lines 91 to 93 *)
Definition CrawlDomain_enter (dom : string) : Frame :=
  {| domain := dom; baseURL := "https://" +:+ dom;
     visited := ∅; toVisit := ["https://" +:+ dom] |}.

(** [CrawlDomain] *)
Definition CrawlDomain (fuel : nat) (s : Shared) (dom : string) : outcome :=
  CrawlDomain_loop fuel s (CrawlDomain_enter dom).

(** *** Readings of the trace *)

(** The addresses requested, oldest first. *)
Definition fetched (t : list event) : list string :=
  omap (λ e, match e with EvGet u => Some u | _ => None end) t.

(** The addresses logged as [Crawling], oldest first: line 106 follows the
    assignment [visited[currentURL] = true] of line 104. *)
Definition crawled (t : list event) : list string :=
  omap (λ e, match e with EvLog (Crawling u) => Some u | _ => None end) t.

(** The link lists [ParseLinks] returned, oldest first. *)
Definition parsed (t : list event) : list (list string) :=
  omap (λ e, match e with EvParsed links => Some links | _ => None end) t.

(** The entry of [dom] in [c.ProductURLs], as [c.ProductURLs[dom]] reads
    it: a missing key reads as the empty slice. *)
Definition products_of (s : Shared) (dom : string) : list string :=
  default [] (ProductURLs (crawler s) !! dom).

(** Where an outcome left the crawler and the frame. *)
Definition final (o : outcome) : Shared * Frame :=
  match o with
  | Returned s f | Parked s f | OutOfFuel s f => (s, f)
  end.

End Traversal.

(** ** Goroutines

    [RunCrawler] starts one goroutine per domain. Between two of the points
    below a goroutine touches shared state once, so each move from point to
    point is one atomic step, and a run of the crawler is an interleaving
    of such steps. *)

Section Goroutines.
Context {L : Library}.

(** Where a call of [CrawlDomain] stands. *)
Inductive pc : Type :=
| AtLoop                          (** line 95, before the loop test *)
| Acquired                        (** line 97, the token taken *)
| Fetching (currentURL : string)  (** line 106 *)
| Linking (links : list string)   (** line 121, the links still to range over *)
| Sleeping                        (** line 130 *)
| Releasing                       (** before any of the four [<-c.semaphore] *)
| Finished.                       (** returned; [wg.Done()] has run *)

Record Goroutine : Type := { frame : Frame; at_pc : pc }.

(** Is the goroutine between its send and its receive? *)
Definition holds_token (g : Goroutine) : bool :=
  match at_pc g with
  | AtLoop | Finished => false
  | _ => true
  end.

(** Has the goroutine called [Fetch] and not yet returned from it? *)
Definition in_flight (g : Goroutine) : bool :=
  match at_pc g with
  | Fetching _ => true
  | _ => false
  end.

(** One step of one goroutine. [None]: it cannot move (parked on the
    semaphore, or finished). *)
Definition goroutine_step (s : Shared) (g : Goroutine)
    : option (Shared * Goroutine) :=
  let f := frame g in
  match at_pc g with
  | AtLoop =>
      match toVisit f with
      | [] => Some (s, {| frame := f; at_pc := Finished |})
      | _ :: _ => s ← acquire s; Some (s, {| frame := f; at_pc := Acquired |})
      end
  | Acquired =>
      let '(f, current) := pop_check f in
      Some (s, {| frame := f;
                  at_pc := match current with
                           | None => Releasing
                           | Some currentURL => Fetching currentURL
                           end |})
  | Fetching currentURL =>
      let '(s, r) := fetch_parse s f currentURL in
      Some (s, {| frame := f;
                  at_pc := match r with
                           | None => Releasing
                           | Some links => Linking links
                           end |})
  | Linking [] => Some (s, {| frame := f; at_pc := Sleeping |})
  | Linking (link :: links) =>
      let '(s, f) := process_link (s, f) link in
      Some (s, {| frame := f; at_pc := Linking links |})
  | Sleeping => Some (sleep s, {| frame := f; at_pc := Releasing |})
  | Releasing => s ← release s; Some (s, {| frame := f; at_pc := AtLoop |})
  | Finished => None
  end.

(** A goroutine running alone for at most [n] steps. *)
Fixpoint goroutine_run (n : nat) (s : Shared) (g : Goroutine) : Shared * Goroutine :=
  match n with
  | O => (s, g)
  | S n =>
      match goroutine_step s g with
      | None => (s, g)
      | Some (s', g') => goroutine_run n s' g'
      end
  end.

(** The crawler and its goroutines. *)
Record System : Type := { shared : Shared; goroutines : list Goroutine }.

Inductive label : Type :=
| Run (i : nat)            (** goroutine [i] takes a step *)
| Handoff (i j : nat).     (** [j] receives while [i] waits to send *)

(** The scheduler picks any goroutine that can move. On a full channel a
    receive can also wake a parked sender in the same instant. *)
Inductive sys_step : label -> System -> System -> Prop :=
| sys_run (i : nat) (sys : System) (g g' : Goroutine) (s' : Shared) :
    goroutines sys !! i = Some g ->
    goroutine_step (shared sys) g = Some (s', g') ->
    sys_step (Run i) sys
      {| shared := s'; goroutines := <[i := g']> (goroutines sys) |}
| sys_handoff (i j : nat) (sys : System) (gi gj : Goroutine) :
    i ≠ j ->
    goroutines sys !! i = Some gi ->
    goroutines sys !! j = Some gj ->
    at_pc gi = AtLoop ->
    toVisit (frame gi) ≠ [] ->
    at_pc gj = Releasing ->
    chan_len (semaphore (crawler (shared sys)))
      = chan_cap (semaphore (crawler (shared sys))) ->
    sys_step (Handoff i j) sys
      {| shared := emit (emit (shared sys) EvRecv) EvSend;
         goroutines :=
           <[j := {| frame := frame gj; at_pc := AtLoop |}]>
             (<[i := {| frame := frame gi; at_pc := Acquired |}]>
                (goroutines sys)) |}.

(** An execution: the labels of its steps, first step first. *)
Inductive exec : System -> list label -> System -> Prop :=
| exec_done (sys : System) : exec sys [] sys
| exec_step (l : label) (ls : list label) (sys1 sys2 sys3 : System) :
    sys_step l sys1 sys2 -> exec sys2 ls sys3 -> exec sys1 (l :: ls) sys3.

(** [RunCrawler] up to [wg.Wait()]: one goroutine per entry of [Domains],
    each at the top of [CrawlDomain]. *)
Definition RunCrawler_spawn (s : Shared) : System :=
  {| shared := s;
     goroutines :=
       (λ dom, {| frame := CrawlDomain_enter dom; at_pc := AtLoop |})
         <$> Domains (crawler s) |}.

(** [wg.Wait()] returns once every goroutine has finished. *)
Definition RunCrawler_returned (sys : System) : Prop :=
  Forall (λ g, at_pc g = Finished) (goroutines sys).

(** The state [WebCrawler] hands to [RunCrawler]. *)
Definition start (c : Crawler) (w : World) : Shared :=
  {| crawler := c; world := w; trace := [] |}.

(** The system after goroutine [i] has taken a step, if it can. *)
Definition run_goroutine (i : nat) (sys : System) : option System :=
  g ← goroutines sys !! i;
  '(s', g') ← goroutine_step (shared sys) g;
  Some {| shared := s'; goroutines := <[i := g']> (goroutines sys) |}.

(** A schedule names the goroutine to run at each step; it fails at a step
    whose goroutine cannot move. *)
Fixpoint schedule (order : list nat) (sys : System) : option System :=
  match order with
  | [] => Some sys
  | i :: order => sys' ← run_goroutine i sys; schedule order sys'
  end.

Definition tokens_held (sys : System) : nat :=
  length (filter (λ g, holds_token g = true) (goroutines sys)).

Definition fetches_in_flight (sys : System) : nat :=
  length (filter (λ g, in_flight g = true) (goroutines sys)).



End Goroutines.

(** ** The specification's reading of [isProductURL]

    The specification speaks of the path of the address. The generic
    syntax (RFC 3986, appendix B) cuts an address into scheme, authority,
    path, and the rest. *)
Module rfc3986.

Record parts : Type := {
  scheme : option string;
  authority : option string;
  path : string;
  rest : string            (** query and fragment, with their [?] and [#] *)
}.

(** The longest prefix without a byte of [stops], and what follows it. *)
Fixpoint span (stops : list ascii) (s : string) : string * string :=
  match s with
  | EmptyString => (EmptyString, EmptyString)
  | String c tl =>
      if bool_decide (c ∈ stops) then (EmptyString, s)
      else let '(a, b) := span stops tl in (String c a, b)
  end.

Definition cut_scheme (s : string) : option string * string :=
  match span [":"; "/"; "?"; "#"]%char s with
  | (String c a, String ":" b) => (Some (String c a), b)
  | _ => (None, s)
  end.

Definition cut_authority (s : string) : option string * string :=
  match s with
  | String "/" (String "/" tl) =>
      let '(a, b) := span ["/"; "?"; "#"]%char tl in (Some a, b)
  | _ => (None, s)
  end.

Definition split (s : string) : parts :=
  let '(sch, s1) := cut_scheme s in
  let '(auth, s2) := cut_authority s1 in
  let '(p, r) := span ["?"; "#"]%char s2 in
  {| scheme := sch; authority := auth; path := p; rest := r |}.

Definition join (u : parts) : string :=
  from_option (λ s, s +:+ ":") "" (scheme u)
  +:+ from_option (λ a, "//" +:+ a) "" (authority u)
  +:+ path u +:+ rest u.

End rfc3986.

(** "True iff the URL's path contains any of the markers". *)
Definition spec_isProductURL (url : string) : bool :=
  regexp.MatchString
    (regexp.Alternate (regexp.Literal "/product/")
       (regexp.Alternate (regexp.Literal "/item/")
          (regexp.Alternate (regexp.Literal "/p/") (regexp.Literal "/dp/"))))
    (rfc3986.path (rfc3986.split url)).

(** ** A small web to run the model on

    An implementation of [Library] over a handful of pages. A page's body
    is the list of its anchors' [href]s, separated by blanks. *)
Module toy.

Definition page (hrefs : string) : result Response :=
  Ok {| StatusCode := 200; Body := hrefs |}.

Definition pages : list (string * result Response) :=
  [ (* R links to A and B, A links to C *)
    ("https://bfs.test", page "/a /b");
    ("https://bfs.test/a", page "/c");
    ("https://bfs.test/b", page "");
    ("https://bfs.test/c", page "");
    (* a cycle through the root *)
    ("https://cycle.test", page "/b");
    ("https://cycle.test/b", page "https://cycle.test /b");
    (* products, a foreign host, an address that does not parse *)
    ("https://shop.test",
     page "/list /product/1 https://other.test/p/9 /product/1 :bad /list");
    ("https://shop.test/list", page "/product/1 /item/2 /about?next=/p/5");
    (* a host that refuses connections, and one that answers 500 *)
    ("https://down.test", Err "connection refused");
    ("https://err.test", Ok {| StatusCode := 500; Body := "" |}) ].

Fixpoint assoc {A : Type} (dflt : A) (k : string) (l : list (string * A)) : A :=
  match l with
  | [] => dflt
  | (k', v) :: l => if bool_decide (k = k') then v else assoc dflt k l
  end.

(** The network keeps the log of its requests. *)
Definition get (w : list string) (link : string) : result Response * list string :=
  (assoc (Ok {| StatusCode := 404; Body := "" |}) link pages, w ++ [link]).

(** [url.Parse] refuses an address that starts with a colon ("missing
    protocol scheme"). *)
Definition parse (s : string) : result rfc3986.parts :=
  match s with
  | String ":" _ => Err "missing protocol scheme"
  | _ => Ok (rfc3986.split s)
  end.

(** Reference resolution for the references the pages use: absolute ones,
    and paths from the root of the host. *)
Definition resolve (base ref : rfc3986.parts) : rfc3986.parts :=
  match rfc3986.scheme ref, rfc3986.authority ref with
  | Some _, _ => ref
  | None, Some _ =>
      {| rfc3986.scheme := rfc3986.scheme base;
         rfc3986.authority := rfc3986.authority ref;
         rfc3986.path := rfc3986.path ref;
         rfc3986.rest := rfc3986.rest ref |}
  | None, None =>
      {| rfc3986.scheme := rfc3986.scheme base;
         rfc3986.authority := rfc3986.authority base;
         rfc3986.path := rfc3986.path ref;
         rfc3986.rest := rfc3986.rest ref |}
  end.

(** A body that starts with a NUL byte stands for input the parser gives
    up on. *)
Definition document (body : string) : result (list string) :=
  match body with
  | String "000" _ => Err "unreadable"
  | _ => Ok (String.words body)
  end.

#[export] Instance library : Library := {|
  World := list string;
  URL := rfc3986.parts;
  Document := list string;
  Selection := string;
  http_Get := get;
  url_Parse := parse;
  Host := λ u, default "" (rfc3986.authority u);
  ResolveReference := resolve;
  URL_String := rfc3986.join;
  NewDocumentFromReader := document;
  Html := λ doc, fold_right (λ h acc, h +:+ " " +:+ acc) "" doc;
  Find_a_href := λ doc, doc;
  Attr_href := Some;
  fetch_status_msg := λ link code, "failed to fetch " +:+ link
|}.

(** The crawler [CreateNewCrawler domains 0 k] makes. *)
Definition crawler_for (domains : list string) (k : nat) : Crawler :=
  {| Domains := domains; RateLimit := 0; Concurrency := Z.of_nat k;
     ProductURLs := ∅;
     semaphore := {| chan_cap := k; chan_len := 0 |} |}.

(** That crawler on a network that has seen no request. *)
Definition crawler_of (domains : list string) (k : nat) : Shared :=
  start (crawler_for domains k) [].

(** The system a schedule leads to, or the system itself when the schedule
    names a goroutine that cannot move. *)
Definition after (order : list nat) (sys : System) : System :=
  default sys (schedule order sys).

End toy.

(** ** The vocabulary of the properties *)

Section Vocabulary.
Context {L : Library}.

(** The links a fetch of [u] in the network [w] hands to the traversal
    rooted at [base], if it hands any. *)
Definition page_links (w : World) (base u : string) : option (list string) :=
  match (Fetch w u).1 with
  | Ok html =>
      match ParseLinks html base with
      | Ok links => Some links
      | Err _ => None
      end
  | Err _ => None
  end.

(** A finite link graph: a finite set of addresses that holds the root and
    every link of every page of an address in it. *)
Definition closed_site (base : string) (U : gset string) : Prop :=
  base ∈ U /\
  forall w u links, u ∈ U -> page_links w base u = Some links ->
    forall link, link ∈ links -> link ∈ U.


(** A free slot in the semaphore. *)
Definition has_room (s : Shared) : Prop :=
  (chan_len (semaphore (crawler s)) < chan_cap (semaphore (crawler s)))%nat.

#[global] Instance has_room_dec (s : Shared) : Decision (has_room s) :=
  decide (chan_len (semaphore (crawler s)) < chan_cap (semaphore (crawler s)))%nat.

(** The [href] values of the anchors of a document, in document order. *)
Definition hrefs_of (doc : Document) : list string :=
  omap Attr_href (Find_a_href doc).

(** The links of a page that line 124 records. *)
Definition recorded_of (links : list string) : list string :=
  filter (λ link, IsProductURL link = true) links.

(** The links of a page that line 127 enqueues, for a frame [f]. *)
Definition enqueued_of (f : Frame) (links : list string) : list string :=
  filter (λ link, IsProductURL link = false /\ visited_get f link = false) links.

(** A step leaves the configuration and the semaphore as they were. *)
Definition same_gate (s s' : Shared) : Prop :=
  Domains (crawler s') = Domains (crawler s) /\
  RateLimit (crawler s') = RateLimit (crawler s) /\
  Concurrency (crawler s') = Concurrency (crawler s) /\
  semaphore (crawler s') = semaphore (crawler s).

(** The four ways through the loop body: the address was seen before, the
    fetch failed, the parse failed, or the links were processed. *)
Inductive turn (s : Shared) (f : Frame) (u : string) (rest : list string)
    (s' : Shared) (f' : Frame) : Prop :=
| turn_skipped :
    visited_get f u = true ->
    visited f' = visited f -> toVisit f' = rest ->
    world s' = world s ->
    ProductURLs (crawler s') = ProductURLs (crawler s) ->
    trace s' = trace s ++ [EvSend; EvRecv] ->
    turn s f u rest s' f'
| turn_fetch_failed (e : string) :
    visited_get f u = false ->
    (Fetch (world s) u).1 = Err e ->
    visited f' = <[u := true]> (visited f) -> toVisit f' = rest ->
    world s' = (Fetch (world s) u).2 ->
    ProductURLs (crawler s') = ProductURLs (crawler s) ->
    trace s' = trace s ++ [EvSend; EvLog (Crawling u); EvGet u;
                           EvLog (ErrorFetching u e); EvRecv] ->
    turn s f u rest s' f'
| turn_parse_failed (html e : string) :
    visited_get f u = false ->
    (Fetch (world s) u).1 = Ok html ->
    ParseLinks html (baseURL f) = Err e ->
    visited f' = <[u := true]> (visited f) -> toVisit f' = rest ->
    world s' = (Fetch (world s) u).2 ->
    ProductURLs (crawler s') = ProductURLs (crawler s) ->
    trace s' = trace s ++ [EvSend; EvLog (Crawling u); EvGet u;
                           EvLog (ErrorParsing u e); EvRecv] ->
    turn s f u rest s' f'
| turn_processed (html : string) (links : list string) :
    visited_get f u = false ->
    (Fetch (world s) u).1 = Ok html ->
    ParseLinks html (baseURL f) = Ok links ->
    visited f' = <[u := true]> (visited f) ->
    toVisit f' =
      rest ++ filter (λ link, IsProductURL link = false /\
                              default false (<[u := true]> (visited f) !! link) = false)
                links ->
    world s' = (Fetch (world s) u).2 ->
    products_of s' (domain f) = products_of s (domain f) ++ recorded_of links ->
    (forall d, d ≠ domain f ->
       ProductURLs (crawler s') !! d = ProductURLs (crawler s) !! d) ->
    (recorded_of links = [] ->
       ProductURLs (crawler s') = ProductURLs (crawler s)) ->
    trace s' = trace s ++ [EvSend; EvLog (Crawling u); EvGet u; EvParsed links;
                           EvSleep (RateLimit (crawler s)); EvRecv] ->
    turn s f u rest s' f'.

(** The facts a traversal of [dom] keeps, from a crawler whose domain entry
    was [before] and whose trace was empty. *)
Record crawl_inv (dom : string) (before : list string) (s : Shared) (f : Frame)
    : Prop := {
  inv_domain : domain f = dom;
  inv_baseURL : baseURL f = "https://" +:+ dom;
  inv_fetched : fetched (trace s) = crawled (trace s);
  inv_nodup : NoDup (crawled (trace s));
  inv_visited : forall u, visited_get f u = true <-> u ∈ crawled (trace s);
  inv_products :
    products_of s dom = before ++ recorded_of (concat (parsed (trace s)));
  inv_frontier :
    Forall (λ u, u = "https://" +:+ dom \/ IsProductURL u = false) (toVisit f);
  inv_crawled :
    Forall (λ u, u = "https://" +:+ dom \/ IsProductURL u = false)
      (crawled (trace s))
}.


(** The token a goroutine holds, counted. *)
Definition token_of (g : Goroutine) : nat :=
  if holds_token g then 1%nat else 0%nat.

(** The tokens out of the semaphore are with the goroutines between their
    send and their receive, and the buffer is never over its capacity. *)
Definition gate_inv (sys : System) : Prop :=
  tokens_held sys = chan_len (semaphore (crawler (shared sys))) /\
  (chan_len (semaphore (crawler (shared sys)))
   <= chan_cap (semaphore (crawler (shared sys))))%nat.




(** *** Further readings of the trace *)

(** The sends ([true]) and receives ([false]) on the semaphore, oldest
    first. *)
Definition gate_events (t : list event) : list bool :=
  omap (λ e, match e with
             | EvSend => Some true
             | EvRecv => Some false
             | _ => None
             end) t.

(** The durations slept, oldest first. *)
Definition sleeps (t : list event) : list Z :=
  omap (λ e, match e with EvSleep d => Some d | _ => None end) t.

(** The network after requests for [links], in this order. *)
Definition requests (w : World) (links : list string) : World :=
  foldl (λ w link, (http_Get w link).2) w links.

(** What a turn on the address [u] adds, for the pages [pages] it parsed
    (none, or the one page of [u]). *)
Record turn_effect (s : Shared) (f : Frame) (u : string) (rest : list string)
    (s' : Shared) (f' : Frame) (pages : list (list string)) : Prop := {
  eff_parsed : parsed (trace s') = parsed (trace s) ++ pages;
  eff_pages :
    Forall (λ links, visited_get f u = false /\
                     page_links (world s) (baseURL f) u = Some links) pages;
  eff_one :
    (length pages <= length (if visited_get f u then [] else [u]))%nat;
  eff_gate : gate_events (trace s') = gate_events (trace s) ++ [true; false];
  eff_sleeps :
    sleeps (trace s') =
    sleeps (trace s) ++ replicate (length pages) (RateLimit (crawler s));
  eff_world :
    world s' = if visited_get f u then world s else (http_Get (world s) u).2;
  eff_fetched :
    fetched (trace s') = fetched (trace s) ++ (if visited_get f u then [] else [u]);
  eff_visited :
    visited f' = if visited_get f u then visited f else <[u := true]> (visited f);
  eff_toVisit : toVisit f' = rest ++ enqueued_of f' (concat pages);
  eff_map :
    ProductURLs (crawler s') =
    if decide (recorded_of (concat pages) = []) then ProductURLs (crawler s)
    else <[domain f := products_of s (domain f) ++ recorded_of (concat pages)]>
           (ProductURLs (crawler s))
}.

(** What holds between the turns of a traversal of [dom] that started from
    [s0], on an empty trace. *)
Record run_inv (s0 : Shared) (dom : string) (s : Shared) (f : Frame) : Prop := {
  run_gate : same_gate s0 s;
  run_domain : domain f = dom;
  run_baseURL : baseURL f = "https://" +:+ dom;
  run_tokens :
    exists n, gate_events (trace s) = concat (replicate n [true; false]);
  run_sleeps :
    sleeps (trace s) =
    replicate (length (parsed (trace s))) (RateLimit (crawler s0));
  run_pages : (length (parsed (trace s)) <= length (fetched (trace s)))%nat;
  run_world : world s = requests (world s0) (fetched (trace s));
  run_seen :
    forall u, u ∈ fetched (trace s) \/ u ∈ toVisit f ->
      u = "https://" +:+ dom \/
      (u ∈ concat (parsed (trace s)) /\ IsProductURL u = false);
  run_scope :
    Forall (λ link, isSameDomain ("https://" +:+ dom) link = true)
      (concat (parsed (trace s)));
  run_pending :
    forall link,
      link = "https://" +:+ dom \/
      (link ∈ concat (parsed (trace s)) /\ IsProductURL link = false) ->
      visited_get f link = true \/ link ∈ toVisit f;
  run_map :
    ProductURLs (crawler s) =
    if decide (recorded_of (concat (parsed (trace s))) = [])
    then ProductURLs (crawler s0)
    else <[dom := products_of s0 dom ++ recorded_of (concat (parsed (trace s)))]>
           (ProductURLs (crawler s0))
}.

(** What holds of a crawler whose product index was empty when its
    goroutines were started: a goroutine ranges over links of its own host,
    and an entry of the index belongs to a goroutine and holds product
    addresses of its host, one at least. *)
Definition index_inv (sys : System) : Prop :=
  (forall g, g ∈ goroutines sys ->
     baseURL (frame g) = "https://" +:+ domain (frame g) /\
     match at_pc g with
     | Linking links =>
         Forall (λ link, isSameDomain (baseURL (frame g)) link = true) links
     | _ => True
     end) /\
  (forall d entry, ProductURLs (crawler (shared sys)) !! d = Some entry ->
     (exists g, g ∈ goroutines sys /\ domain (frame g) = d) /\
     entry ≠ [] /\
     Forall (λ u, IsProductURL u = true /\
                  isSameDomain ("https://" +:+ d) u = true) entry).

End Vocabulary.


(** * Properties *)

(** ** Matching *)

Lemma append_cons (c : ascii) (s t : string) :
  String c s +:+ t = String c (s +:+ t).
Proof. reflexivity. Qed.

Lemma prefix_app (l s : string) :
  String.prefix l s = true <-> exists post, s = l +:+ post.
Proof.
  revert s. induction l as [|c l IH]; intros s.
  - destruct s; simpl; (split; [intros _; eexists; reflexivity | reflexivity]).
  - destruct s as [|d s]; simpl.
    + split; [discriminate | intros [post Hp]; discriminate].
    + destruct (Ascii.ascii_dec c d) as [->|Hne].
      * rewrite IH. split; intros [post Hp]; exists post;
          rewrite ?append_cons in *; congruence.
      * split; [discriminate |].
        intros [post Hp]. rewrite append_cons in Hp. congruence.
Qed.

Lemma match_here_denotes (r : regexp.Regexp) (s : string) :
  regexp.match_here r s = true <->
  exists m post, s = m +:+ post /\ regexp.denotes r m.
Proof.
  induction r as [l | r1 IH1 r2 IH2]; simpl.
  - rewrite prefix_app. split.
    + intros [post ->]. by exists l, post.
    + intros (m & post & -> & ->). by exists post.
  - rewrite orb_true_iff, IH1, IH2. split.
    + intros [(m & post & Hs & Hm) | (m & post & Hs & Hm)];
        exists m, post; tauto.
    + intros (m & post & Hs & [Hm | Hm]); [left | right]; by exists m, post.
Qed.

(** [MatchString] finds a match exactly when some piece of the input is in
    the language of the pattern. *)
Lemma MatchString_denotes (r : regexp.Regexp) (s : string) :
  regexp.MatchString r s = true <->
  exists pre m post, s = pre +:+ m +:+ post /\ regexp.denotes r m.
Proof.
  induction s as [|c s IH].
  - simpl. rewrite orb_false_r, match_here_denotes. split.
    + intros (m & post & Hs & Hm). by exists "", m, post.
    + intros (pre & m & post & Hs & Hm). exists m, post.
      destruct pre; [done | by rewrite append_cons in Hs].
  - cbn [regexp.MatchString]. rewrite orb_true_iff, IH, match_here_denotes.
    split.
    + intros [(m & post & Hs & Hm) | (pre & m & post & Hs & Hm)].
      * by exists "", m, post.
      * exists (String c pre), m, post. by rewrite append_cons, Hs.
    + intros (pre & m & post & Hs & Hm). destruct pre as [|d pre].
      * left. by exists m, post.
      * right. exists pre, m, post. rewrite append_cons in Hs.
        split; [congruence | done].
Qed.


Lemma productRegex_denotes (m : string) :
  regexp.denotes productRegex m <->
  m ∈ ["/product/"; "/item/"; "/p/"; "/dp/"].
Proof.
  unfold productRegex. simpl. rewrite !elem_of_cons, elem_of_nil. tauto.
Qed.

(** ** The product classifier *)

(** C3, as the specification states it, fails: the pattern is matched
    against the whole address, so a marker in the query makes a product of
    an address whose path has none. *)
Lemma IsProductURL_not_path_only :
  ~ (IsProductURL "https://x.com/about?ref=/p/5" = true <->
     spec_isProductURL "https://x.com/about?ref=/p/5" = true).
Proof. vm_compute. intros [Hcode _]. by specialize (Hcode eq_refl). Qed.

(** C3, amended: [IsProductURL] is true exactly when the address, taken as
    a whole string, contains one of [/product/], [/item/], [/p/], [/dp/];
    it is true on the four product examples and false on the two others;
    being a function of its argument alone, equal inputs give equal
    results. *)
Theorem IsProductURL_contains_marker :
  (forall link : string,
     IsProductURL link = true <->
     exists pre marker post,
       marker ∈ ["/product/"; "/item/"; "/p/"; "/dp/"] /\
       link = pre +:+ marker +:+ post) /\
  IsProductURL "https://x.com/product/123" = true /\
  IsProductURL "https://x.com/item/9" = true /\
  IsProductURL "https://x.com/p/5" = true /\
  IsProductURL "https://x.com/dp/ABC" = true /\
  IsProductURL "/item/9" = true /\
  IsProductURL "/p/5" = true /\
  IsProductURL "/dp/ABC" = true /\
  IsProductURL "https://x.com/about" = false /\
  IsProductURL "https://x.com/category/shoes" = false /\
  (forall link1 link2 : string,
     link1 = link2 -> IsProductURL link1 = IsProductURL link2).
Proof.
  split.
  { intros link. unfold IsProductURL. rewrite MatchString_denotes.
    split; intros (pre & m & post & H1 & H2).
    - exists pre, m, post. by rewrite <- productRegex_denotes.
    - exists pre, m, post. by rewrite productRegex_denotes. }
  repeat split; try reflexivity. by intros ?? ->.
Qed.

(** ** The address helpers and the link extractor *)

Lemma NoDup_four {A : Type} (a b c d : A) :
  NoDup [a; b; c; d] -> a ≠ b /\ a ≠ c /\ a ≠ d /\ b ≠ c /\ b ≠ d /\ c ≠ d.
Proof.
  intros Hnd.
  apply NoDup_cons in Hnd as [Ha Hnd]. apply NoDup_cons in Hnd as [Hb Hnd].
  apply NoDup_cons in Hnd as [Hc _].
  apply not_elem_of_cons in Ha as [? Ha]. apply not_elem_of_cons in Ha as [? Ha].
  apply not_elem_of_cons in Ha as [? _].
  apply not_elem_of_cons in Hb as [? Hb]. apply not_elem_of_cons in Hb as [? _].
  apply not_elem_of_cons in Hc as [? _]. done.
Qed.

(** Filtering keeps every copy of an element it accepts and none of one it
    rejects. *)
Lemma count_filter {A : Type} `{EqDecision A} (p : A -> bool) (u : A) (l : list A) :
  length (filter (λ v, v = u) (filter (λ v, p v = true) l)) =
  if p u then length (filter (λ v, v = u) l) else O.
Proof.
  induction l as [|v l IH]; [by destruct (p u) |].
  rewrite (filter_cons (λ v, p v = true)), (filter_cons (λ v, v = u) v l).
  destruct (decide (p v = true)) as [Hv | Hv].
  - rewrite filter_cons. destruct (decide (v = u)) as [-> | Hne]; [| done].
    rewrite Hv in *. simpl. by rewrite IH.
  - destruct (decide (v = u)) as [-> | Hne]; [| done].
    rewrite IH. by destruct (p u).
Qed.

Section LeafProperties.
Context {L : Library}.

Lemma isSameDomain_hosts (baseURL href : string) :
  isSameDomain baseURL href = true <->
  exists b h, url_Parse baseURL = Ok b /\ url_Parse href = Ok h /\
              Host b = Host h.
Proof.
  unfold isSameDomain.
  destruct (url_Parse baseURL) as [b | eb]; [destruct (url_Parse href) as [h | eh] |].
  - rewrite bool_decide_eq_true. split.
    + intros Hh. by exists b, h.
    + intros (b' & h' & Hb & Hh & Heq). congruence.
  - split; [done | intros (b' & h' & Hb & Hh & Heq); discriminate].
  - split; [done | intros (b' & h' & Hb & Hh & Heq); discriminate].
Qed.

(** C9: [resolveURL] and [isSameDomain] are total. [resolveURL] gives the
    empty string as soon as one of its arguments does not parse, and the
    resolved reference otherwise. [isSameDomain] is true exactly when both
    arguments parse and their hosts are the same string; when one of them
    does not parse it is false. *)
Theorem resolveURL_isSameDomain_recover (baseURL href : string) :
  resolveURL baseURL href =
    match url_Parse baseURL, url_Parse href with
    | Ok b, Ok h => URL_String (ResolveReference b h)
    | _, _ => ""
    end /\
  ((exists e, url_Parse baseURL = Err e) \/ (exists e, url_Parse href = Err e) ->
   resolveURL baseURL href = "" /\ isSameDomain baseURL href = false) /\
  (isSameDomain baseURL href = true <->
   exists b h, url_Parse baseURL = Ok b /\ url_Parse href = Ok h /\
               Host b = Host h).
Proof.
  split; [| split; [| apply isSameDomain_hosts]]; unfold resolveURL, isSameDomain.
  - by destruct (url_Parse baseURL), (url_Parse href).
  - intros [[e He] | [e He]]; rewrite He; [done |].
    by destruct (url_Parse baseURL).
Qed.

Lemma ParseLinks_each_foldl (baseURL : string) (sels : list Selection)
    (acc : list string) :
  foldl (ParseLinks_each baseURL) acc sels =
  acc ++ filter (λ u, isSameDomain baseURL u = true)
           (resolveURL baseURL <$> omap Attr_href sels).
Proof.
  revert acc. induction sels as [|s sels IH]; intros acc; simpl.
  - by rewrite app_nil_r.
  - rewrite IH. unfold ParseLinks_each.
    destruct (Attr_href s) as [href|]; simpl; [| done].
    destruct (isSameDomain baseURL (resolveURL baseURL href)) eqn:Hsame.
    + rewrite filter_cons_True by done. by rewrite <- app_assoc.
    + rewrite filter_cons_False; [done |]. by rewrite Hsame.
Qed.

(** C5: when the document parses, [ParseLinks] returns the resolved
    [href]s of its anchors that [isSameDomain] accepts, and nothing else:
    an address is returned only if it parses to the host of the base, the
    result is a subsequence of the resolved anchors (document order), and
    an accepted address occurs as often in the result as among the anchors
    (no deduplication). When the document does not parse the error is
    returned with no links. *)
Theorem ParseLinks_same_host_in_order (html baseURL : string) :
  match NewDocumentFromReader html with
  | Err e => ParseLinks html baseURL = Err e
  | Ok doc =>
      let resolved := resolveURL baseURL <$> hrefs_of doc in
      exists links,
        ParseLinks html baseURL = Ok links /\
        links = filter (λ u, isSameDomain baseURL u = true) resolved /\
        (forall u, u ∈ links <->
           u ∈ resolved /\
           exists b h, url_Parse baseURL = Ok b /\ url_Parse u = Ok h /\
                       Host b = Host h) /\
        links `sublist_of` resolved /\
        (forall u, length (filter (λ v, v = u) links) =
           if isSameDomain baseURL u
           then length (filter (λ v, v = u) resolved) else O)
  end.
Proof.
  unfold ParseLinks. destruct (NewDocumentFromReader html) as [doc | e]; [| done].
  cbn zeta. eexists. split; [reflexivity |].
  rewrite ParseLinks_each_foldl, app_nil_l. fold (hrefs_of doc).
  set (resolved := resolveURL baseURL <$> hrefs_of doc).
  split; [done |]. split; [| split].
  - intros u. rewrite list_elem_of_filter.
    pose proof (isSameDomain_hosts baseURL u) as Hs. tauto.
  - apply sublist_filter.
  - intros u. apply count_filter.
Qed.

End LeafProperties.

(** ** One turn of the traversal loop *)

Section TurnProperties.
Context {L : Library}.

Lemma products_of_record (s : Shared) (dom link d : string) :
  products_of (record_product s dom link) d =
  if decide (dom = d) then products_of s d ++ [link] else products_of s d.
Proof.
  unfold products_of, record_product. simpl. rewrite lookup_insert.
  by destruct (decide (dom = d)) as [-> | Hne].
Qed.

(** What the range over [links] of lines 121 to 129 does. *)
Lemma process_links_effect (links : list string) (s : Shared) (f : Frame) :
  let '(s', f') := foldl process_link (s, f) links in
  same_gate s s' /\ world s' = world s /\ trace s' = trace s /\
  domain f' = domain f /\ baseURL f' = baseURL f /\ visited f' = visited f /\
  toVisit f' = toVisit f ++ enqueued_of f links /\
  products_of s' (domain f) = products_of s (domain f) ++ recorded_of links /\
  (forall d, d ≠ domain f ->
     ProductURLs (crawler s') !! d = ProductURLs (crawler s) !! d) /\
  (recorded_of links = [] -> ProductURLs (crawler s') = ProductURLs (crawler s)).
Proof.
  revert s f. induction links as [|link links IH]; intros s f.
  { simpl. unfold same_gate, enqueued_of, recorded_of.
    rewrite !filter_nil, !app_nil_r. repeat split; auto. }
  cbn [foldl]. unfold process_link at 2.
  unfold enqueued_of, recorded_of in *.
  destruct (IsProductURL link) eqn:Hp.
  - specialize (IH (record_product s (domain f) link) f).
    destruct (foldl process_link _ links) as [s' f'].
    destruct IH as (Hg & Hw & Ht & Hd & Hb & Hv & Hq & Hr & Ho & _).
    rewrite (filter_cons_True (λ l, IsProductURL l = true)) by done.
    rewrite (filter_cons_False (λ l, _ /\ _)) by (rewrite Hp; intros [? _]; done).
    repeat split; try done; try apply Hg.
    + rewrite Hr, products_of_record, decide_True by done.
      by rewrite <- app_assoc.
    + intros d Hne. rewrite (Ho d Hne). simpl.
      by rewrite lookup_insert_ne.
  - rewrite (filter_cons_False (λ l, IsProductURL l = true)) by (by rewrite Hp).
    destruct (visited_get f link) eqn:Hv; simpl.
    + specialize (IH s f). destruct (foldl process_link _ links) as [s' f'].
      rewrite (filter_cons_False (λ l, _ /\ _)) by (rewrite Hv; intros [_ ?]; done).
      done.
    + specialize (IH s (push f link)).
      destruct (foldl process_link _ links) as [s' f'].
      rewrite (filter_cons_True (λ l, _ /\ _)) by done.
      simpl in IH. destruct IH as (Hg & Hw & Ht & Hd & Hb & Hvis & Hq & Hr & Ho & Hn).
      repeat split; try done; try apply Hg.
      rewrite Hq, <- app_assoc. done.
Qed.

(** A turn needs a free slot of the semaphore, and nothing else. *)
Lemma iteration_parked (s : Shared) (f : Frame) :
  iteration s f = None <->
  (chan_cap (semaphore (crawler s)) <= chan_len (semaphore (crawler s)))%nat.
Proof.
  destruct s as [[D R C P [cap len]] w t]. unfold iteration, acquire, chan_send.
  simpl. case_bool_decide as Hlt; simpl.
  - split; [| lia]. destruct (pop_check f) as [f1 [u|]]; simpl; [| done].
    unfold fetch_parse, do_Fetch. simpl.
    destruct (Fetch w u) as [[html | e] w']; simpl; [| done].
    destruct (ParseLinks html (baseURL f1)) as [links | e]; simpl; [| done].
    match goal with |- context [foldl process_link (?a, ?b) links] =>
      pose proof (process_links_effect links a b) as He;
      destruct (foldl process_link (a, b) links) as [s3 f3] end.
    simpl in He. destruct He as ((_ & _ & _ & Hsem) & _).
    unfold release, sleep. simpl. rewrite Hsem. done.
  - split; [lia | done].
Qed.

(** Every turn that is not parked goes one of the four ways, and hands the
    crawler back with its configuration and semaphore as they were. *)
Lemma iteration_turn (s s' : Shared) (f f' : Frame) (u : string) (rest : list string) :
  toVisit f = u :: rest ->
  iteration s f = Some (s', f') ->
  same_gate s s' /\ domain f' = domain f /\ baseURL f' = baseURL f /\
  (chan_len (semaphore (crawler s)) < chan_cap (semaphore (crawler s)))%nat /\
  turn s f u rest s' f'.
Proof.
  intros Htv. destruct s as [[D R C P [cap len]] w t].
  unfold iteration, acquire, chan_send. simpl.
  case_bool_decide as Hlt; [| done]. simpl.
  unfold pop_check. rewrite Htv.
  destruct (visited_get f u) eqn:Hvis; simpl.
  { intros [= <- <-]. repeat split; try done.
    apply turn_skipped; simpl; try done. by rewrite <- app_assoc. }
  unfold fetch_parse, do_Fetch. simpl.
  destruct (Fetch w u) as [[html | e] w'] eqn:HF; simpl.
  2:{ intros [= <- <-]. repeat split; try done.
      eapply turn_fetch_failed; simpl; rewrite ?HF; try done.
      by rewrite <- !app_assoc. }
  destruct (ParseLinks html (baseURL f)) as [links | e] eqn:HP; simpl.
  2:{ intros [= <- <-]. repeat split; try done.
      eapply turn_parse_failed; simpl; rewrite ?HF; try done.
      by rewrite <- !app_assoc. }
  match goal with |- context [foldl process_link (?a, ?b) links] =>
    pose proof (process_links_effect links a b) as He;
    destruct (foldl process_link (a, b) links) as [s3 f3] end.
  simpl in He.
  destruct He as ((HD & HR & HC & Hsem) & Hw & Ht & Hd & Hb & Hv & Hq & Hr & Ho & Hn).
  unfold release, sleep. simpl. rewrite Hsem. simpl.
  intros [= <- <-]. simpl. repeat split; try done.
  eapply turn_processed; simpl; rewrite ?HF; try done.
  rewrite Ht, HR. simpl. by rewrite <- !app_assoc.
Qed.

End TurnProperties.

(** ** The traversal of one domain *)

Section TraversalProperties.
Context {L : Library}.

Lemma fetched_app (t1 t2 : list event) :
  fetched (t1 ++ t2) = fetched t1 ++ fetched t2.
Proof. apply omap_app. Qed.

Lemma crawled_app (t1 t2 : list event) :
  crawled (t1 ++ t2) = crawled t1 ++ crawled t2.
Proof. apply omap_app. Qed.

Lemma parsed_app (t1 t2 : list event) :
  parsed (t1 ++ t2) = parsed t1 ++ parsed t2.
Proof. apply omap_app. Qed.

Lemma recorded_of_app (l1 l2 : list string) :
  recorded_of (l1 ++ l2) = recorded_of l1 ++ recorded_of l2.
Proof. apply filter_app. Qed.

Lemma visited_get_insert (m : gmap string bool) (u v : string) :
  default false (<[u := true]> m !! v) =
  if decide (u = v) then true else default false (m !! v).
Proof. rewrite lookup_insert. by destruct (decide (u = v)). Qed.

(** A property kept by every turn holds wherever the loop stands. *)
Lemma loop_invariant (I : Shared -> Frame -> Prop) :
  (forall s f s' f', I s f -> toVisit f ≠ [] ->
     iteration s f = Some (s', f') -> I s' f') ->
  forall fuel s f, I s f ->
    I (final (CrawlDomain_loop fuel s f)).1 (final (CrawlDomain_loop fuel s f)).2.
Proof.
  intros Hturn fuel. induction fuel as [|fuel IH]; intros s f HI; simpl.
  - by destruct (toVisit f).
  - destruct (toVisit f) as [|u rest] eqn:Htv; [done |].
    destruct (iteration s f) as [[s' f'] |] eqn:Hit; [| done].
    apply IH. eapply Hturn; [done | | done]. by rewrite Htv.
Qed.

(** What a turn adds to the readings of the trace. *)
Lemma turn_readings (s s' : Shared) (f f' : Frame) (u : string) (rest : list string) :
  turn s f u rest s' f' ->
  visited f' = (if visited_get f u then visited f else <[u := true]> (visited f)) /\
  fetched (trace s') = fetched (trace s) ++ (if visited_get f u then [] else [u]) /\
  crawled (trace s') = crawled (trace s) ++ (if visited_get f u then [] else [u]) /\
  exists links,
    parsed (trace s') = parsed (trace s) ++ links /\
    products_of s' (domain f) =
      products_of s (domain f) ++ recorded_of (concat links) /\
    toVisit f' = rest ++ enqueued_of f' (concat links).
Proof.
  intros [Hv Hvis Htv Hw HP Ht | e Hv HF Hvis Htv Hw HP Ht
          | html e Hv HF HPl Hvis Htv Hw HP Ht
          | html links Hv HF HPl Hvis Htv Hw Hrec Ho Hn Ht];
    rewrite Ht, fetched_app, crawled_app, parsed_app, Hv; simpl;
    (split; [done |]); (split; [done |]); (split; [done |]).
  1-3: exists []; simpl; unfold products_of, recorded_of, enqueued_of;
       rewrite HP, Htv, !filter_nil, !app_nil_r; done.
  exists [links]. simpl. rewrite app_nil_r. split; [done |]. split; [done |].
  rewrite Htv. unfold enqueued_of, visited_get. by rewrite Hvis.
Qed.

Lemma crawl_inv_enter (s : Shared) (dom : string) :
  trace s = [] ->
  crawl_inv dom (products_of s dom) s (CrawlDomain_enter dom).
Proof.
  intros Ht. split; rewrite ?Ht; simpl; try done.
  - apply NoDup_nil_2.
  - intros u. unfold visited_get. simpl. rewrite lookup_empty. simpl.
    split; [done | by intros ?%elem_of_nil].
  - unfold recorded_of. by rewrite filter_nil, app_nil_r.
  - apply Forall_cons. split; [by left | apply Forall_nil_2].
Qed.

Lemma crawl_inv_turn (dom : string) (before : list string)
    (s s' : Shared) (f f' : Frame) :
  crawl_inv dom before s f -> toVisit f ≠ [] ->
  iteration s f = Some (s', f') -> crawl_inv dom before s' f'.
Proof.
  intros [Hd Hb Hfc Hnd Hvis Hprod Hfr Hcr] Hne Hit.
  destruct (toVisit f) as [|u rest] eqn:Htv; [done |].
  destruct (iteration_turn s s' f f' u rest Htv Hit) as (_ & Hd' & Hb' & _ & Hturn).
  destruct (turn_readings _ _ _ _ _ _ Hturn)
    as (Hv' & Hf & Hc & links & Hp & Hrec & Hq).
  split.
  - congruence.
  - congruence.
  - rewrite Hf, Hc. congruence.
  - rewrite Hc. destruct (visited_get f u) eqn:Hu; [by rewrite app_nil_r |].
    apply NoDup_app. split; [done |]. split; [| apply NoDup_singleton].
    intros v Hv ->%list_elem_of_singleton. apply Hvis in Hv. congruence.
  - intros v. rewrite Hc. unfold visited_get at 1. rewrite Hv'.
    destruct (visited_get f u) eqn:Hu.
    + rewrite app_nil_r. apply Hvis.
    + rewrite visited_get_insert, elem_of_app, list_elem_of_singleton.
      destruct (decide (u = v)) as [-> | Hneq]; [tauto |].
      rewrite <- Hvis. unfold visited_get.
      split; [by left | by intros [? | ->]].
  - rewrite Hp, concat_app, recorded_of_app, app_assoc, <- Hprod.
    rewrite <- Hd. apply Hrec.
  - rewrite Hq. apply Forall_app. split.
    + by apply Forall_inv_tail in Hfr.
    + apply Forall_forall. intros v Hv. unfold enqueued_of in Hv.
      apply list_elem_of_filter in Hv. tauto.
  - rewrite Hc. apply Forall_app. split; [done |].
    destruct (visited_get f u); [apply Forall_nil_2 |].
    apply Forall_cons. split; [| apply Forall_nil_2]. by apply Forall_inv in Hfr.
Qed.

(** The facts hold wherever a traversal started on an empty trace stands. *)
Lemma crawl_inv_loop (dom : string) (s : Shared) (fuel : nat) :
  trace s = [] ->
  crawl_inv dom (products_of s dom)
    (final (CrawlDomain fuel s dom)).1 (final (CrawlDomain fuel s dom)).2.
Proof.
  intros Ht. unfold CrawlDomain.
  apply (loop_invariant (crawl_inv dom (products_of s dom))).
  - intros. by eapply crawl_inv_turn.
  - by apply crawl_inv_enter.
Qed.

(** C8: ranging over the links of a page, the loop appends the product
    links, in order, to the entry of the domain and the other links not yet
    visited, in order, to the frontier. Each link goes one way only: a
    product link is recorded and not enqueued; any other link is not
    recorded, and is enqueued exactly when it is not in the visited set. *)
Theorem links_recorded_or_enqueued (s : Shared) (f : Frame) (links : list string) :
  let '(s', f') := foldl process_link (s, f) links in
  products_of s' (domain f) = products_of s (domain f) ++ recorded_of links /\
  toVisit f' = toVisit f ++ enqueued_of f links /\
  forall link, link ∈ links ->
    (IsProductURL link = true ->
       (link ∈ recorded_of links) /\ (link ∉ enqueued_of f links)) /\
    (IsProductURL link = false ->
       (link ∉ recorded_of links) /\
       ((link ∈ enqueued_of f links) <-> visited_get f link = false)).
Proof.
  pose proof (process_links_effect links s f) as He.
  destruct (foldl process_link (s, f) links) as [s' f'].
  destruct He as (_ & _ & _ & _ & _ & _ & Hq & Hr & _).
  split; [done |]. split; [done |].
  intros link Hin. unfold recorded_of, enqueued_of.
  rewrite !list_elem_of_filter. split; intros Hp; rewrite Hp.
  - split; [done |]. by intros [[? _] _].
  - split; [by intros [? _] |]. tauto.
Qed.






Lemma loop_step (fuel : nat) (s s' : Shared) (f f' : Frame) :
  toVisit f ≠ [] -> iteration s f = Some (s', f') ->
  CrawlDomain_loop (S fuel) s f = CrawlDomain_loop fuel s' f'.
Proof. intros Hne Hit. simpl. rewrite Hit. by destruct (toVisit f). Qed.

Lemma loop_stuck (fuel : nat) (s : Shared) (f : Frame) :
  iteration s f = None -> final (CrawlDomain_loop fuel s f) = (s, f).
Proof.
  intros Hit. destruct fuel; simpl; destruct (toVisit f); try done.
  by rewrite Hit.
Qed.

Lemma loop_no_fuel (s : Shared) (f : Frame) :
  final (CrawlDomain_loop 0 s f) = (s, f).
Proof. simpl. by destruct (toVisit f). Qed.

(** The loop only ever adds to the trace. *)
Lemma loop_trace_grows (fuel : nat) (s : Shared) (f : Frame) :
  trace s `prefix_of` trace (final (CrawlDomain_loop fuel s f)).1.
Proof.
  apply (loop_invariant (λ s' _, trace s `prefix_of` trace s')); [| done].
  intros s1 f1 s2 f2 Hpre Hne Hit.
  destruct (toVisit f1) as [|u rest] eqn:Htv; [done |].
  destruct (iteration_turn _ _ _ _ _ _ Htv Hit) as (_ & _ & _ & _ & Hturn).
  etrans; [done |]. destruct Hturn;
    match goal with Ht : trace s2 = _ |- _ => rewrite Ht end;
    by apply prefix_app_r.
Qed.

(** A turn on an address seen before, with a free slot. *)
Lemma seen_turn (s : Shared) (f : Frame) (u : string) (rest : list string) :
  toVisit f = u :: rest -> visited_get f u = true -> has_room s ->
  exists s' f',
    iteration s f = Some (s', f') /\
    trace s' = trace s ++ [EvSend; EvRecv] /\
    semaphore (crawler s') = semaphore (crawler s) /\
    toVisit f' = rest /\ visited f' = visited f /\
    world s' = world s /\
    ProductURLs (crawler s') = ProductURLs (crawler s).
Proof.
  intros Htv Hvis Hroom.
  destruct (iteration s f) as [[s' f'] |] eqn:Hit.
  2:{ apply iteration_parked in Hit. unfold has_room in Hroom. lia. }
  exists s', f'. split; [done |].
  destruct (iteration_turn _ _ _ _ _ _ Htv Hit) as ((_ & _ & _ & Hsem) & _ & _ & _ & Hturn).
  destruct Hturn; try congruence. done.
Qed.

(** C4, amended: a turn that pops an address already in the visited set
    first takes a token, like every turn, and is parked while the semaphore
    is full; with a free slot it gives the token straight back and goes on
    to the rest of the frontier. It fetches nothing, and leaves the visited
    set, the product index, the network and the semaphore as they were. *)
Theorem visited_address_discarded (s : Shared) (f : Frame) (u : string)
    (rest : list string) :
  toVisit f = u :: rest ->
  visited_get f u = true ->
  if bool_decide (has_room s)
  then exists s' f',
         iteration s f = Some (s', f') /\
         trace s' = trace s ++ [EvSend; EvRecv] /\
         semaphore (crawler s') = semaphore (crawler s) /\
         toVisit f' = rest /\ visited f' = visited f /\
         world s' = world s /\
         ProductURLs (crawler s') = ProductURLs (crawler s)
  else iteration s f = None.
Proof.
  intros Htv Hvis. case_bool_decide as Hroom.
  - by apply (seen_turn s f u rest).
  - apply iteration_parked. unfold has_room in Hroom. lia.
Qed.

(** A turn on an address not seen before, with a free slot: the address is
    marked and requested, and the links of its page, if it has any, go to the
    tail of the frontier. *)
Lemma fresh_turn (s : Shared) (f : Frame) (u : string) (rest : list string) :
  toVisit f = u :: rest -> visited_get f u = false -> has_room s ->
  exists s' f',
    iteration s f = Some (s', f') /\ has_room s' /\
    baseURL f' = baseURL f /\
    visited f' = <[u := true]> (visited f) /\
    fetched (trace s') = fetched (trace s) ++ [u] /\
    toVisit f' =
      rest ++
      match page_links (world s) (baseURL f) u with
      | Some links =>
          filter (λ link, IsProductURL link = false /\
                          default false (<[u := true]> (visited f) !! link) = false)
            links
      | None => []
      end.
Proof.
  intros Htv Hvis Hroom.
  destruct (iteration s f) as [[s' f'] |] eqn:Hit.
  2:{ apply iteration_parked in Hit. unfold has_room in Hroom. lia. }
  exists s', f'. split; [done |].
  destruct (iteration_turn _ _ _ _ _ _ Htv Hit)
    as ((_ & _ & _ & Hsem) & _ & Hb & _ & Hturn).
  split; [unfold has_room; by rewrite Hsem |]. split; [done |].
  destruct (turn_readings _ _ _ _ _ _ Hturn) as (Hv' & Hf & _).
  rewrite Hvis in Hv', Hf. split; [done |]. split; [done |].
  unfold page_links.
  destruct Hturn as [Hv | e _ HF _ Hq | html e _ HF HP _ Hq
                    | html links _ HF HP _ Hq]; [congruence | | |];
    rewrite HF, ?HP, ?app_nil_r; done.
Qed.

Lemma fetched_prefix (t1 t2 : list event) :
  t1 `prefix_of` t2 -> fetched t1 `prefix_of` fetched t2.
Proof. intros [more ->]. rewrite fetched_app. by apply prefix_app_r. Qed.

(** C2: the frontier is a queue. A turn takes the address at the head and
    puts what it enqueues, none of it a product address, behind the rest;
    the only address it may request is the one it took. Hence for a root R
    whose page links to A and B, where the page of A links to C (four
    different addresses, none of them a product), the first four requests
    are R, A, B, C in this order: at any moment the requests made so far
    begin with a prefix of it, and with a free slot in the semaphore four
    turns make all four. *)
Theorem breadth_first_order (c : Crawler) (w : World) (dom A B C : string) :
  let R := "https://" +:+ dom in
  (forall w', page_links w' R R = Some [A; B]) ->
  (forall w', page_links w' R A = Some [C]) ->
  NoDup [R; A; B; C] ->
  IsProductURL A = false -> IsProductURL B = false -> IsProductURL C = false ->
  (forall (s s' : Shared) (f f' : Frame) (u : string) (rest : list string),
     toVisit f = u :: rest -> iteration s f = Some (s', f') ->
     exists new,
       toVisit f' = rest ++ new /\
       Forall (λ link, IsProductURL link = false) new /\
       fetched (trace s') =
         fetched (trace s) ++ (if visited_get f u then [] else [u])) /\
  (forall fuel,
     take 4 (fetched (trace (final (CrawlDomain fuel (start c w) dom)).1))
       `prefix_of` [R; A; B; C]) /\
  (has_room (start c w) -> forall fuel, (4 <= fuel)%nat ->
     take 4 (fetched (trace (final (CrawlDomain fuel (start c w) dom)).1))
       = [R; A; B; C]).
Proof.
  intros R HR HA Hnd HpA HpB HpC.
  split.
  { intros s s' f f' u rest Htv Hit.
    destruct (iteration_turn _ _ _ _ _ _ Htv Hit) as (_ & _ & _ & _ & Hturn).
    destruct (turn_readings _ _ _ _ _ _ Hturn) as (_ & Hf & _ & links & _ & _ & Hq).
    eexists. split; [done |]. split; [| done].
    apply Forall_forall. intros v Hv. apply list_elem_of_filter in Hv. tauto. }
  set (s0 := start c w). set (f0 := CrawlDomain_enter dom).
  destruct (decide (has_room s0)) as [Hroom | Hfull].
  2:{ assert (iteration s0 f0 = None) as Hit
        by (apply iteration_parked; unfold has_room in Hfull; lia).
      split; [| done]. intros fuel. unfold CrawlDomain. fold f0.
      rewrite loop_stuck by done. simpl. apply prefix_nil. }
  assert (R ≠ A /\ R ≠ B /\ R ≠ C /\ A ≠ B /\ A ≠ C /\ B ≠ C)
    as (HRA & HRB & HRC & HAB & HAC & HBC).
  { by apply NoDup_four. }
  (* the turn on R *)
  destruct (fresh_turn s0 f0 R [] eq_refl eq_refl Hroom)
    as (s1 & f1 & Hit1 & Hroom1 & Hb1 & Hv1 & Hf1 & Hq1).
  simpl in Hb1, Hv1, Hf1, Hq1. fold R in Hb1, Hq1. rewrite HR in Hq1.
  rewrite filter_cons_True in Hq1
    by (by rewrite visited_get_insert, decide_False, lookup_empty).
  rewrite filter_cons_True in Hq1
    by (by rewrite visited_get_insert, decide_False, lookup_empty).
  rewrite filter_nil in Hq1.
  (* the turn on A *)
  assert (visited_get f1 A = false) as HvA.
  { unfold visited_get.
    by rewrite Hv1, visited_get_insert, decide_False, lookup_empty. }
  destruct (fresh_turn s1 f1 A [B] Hq1 HvA Hroom1)
    as (s2 & f2 & Hit2 & Hroom2 & Hb2 & Hv2 & Hf2 & Hq2).
  rewrite Hb1, HA in Hq2. simpl in Hq2.
  rewrite filter_cons_True, filter_nil in Hq2
    by (by rewrite Hv1, !visited_get_insert, !decide_False, lookup_empty).
  (* the turn on B *)
  assert (visited_get f2 B = false) as HvB.
  { unfold visited_get.
    by rewrite Hv2, Hv1, !visited_get_insert, !decide_False, lookup_empty. }
  destruct (fresh_turn s2 f2 B [C] Hq2 HvB Hroom2)
    as (s3 & f3 & Hit3 & Hroom3 & Hb3 & Hv3 & Hf3 & Hq3).
  (* the turn on C *)
  assert (visited_get f3 C = false) as HvC.
  { unfold visited_get.
    by rewrite Hv3, Hv2, Hv1, !visited_get_insert, !decide_False, lookup_empty. }
  destruct (fresh_turn s3 f3 C _ Hq3 HvC Hroom3)
    as (s4 & f4 & Hit4 & _ & _ & _ & Hf4 & _).
  rewrite Hf3, Hf2, Hf1 in Hf4. simpl in Hf4.
  rewrite Hf2, Hf1 in Hf3. simpl in Hf3. rewrite Hf1 in Hf2. simpl in Hf2.
  assert (toVisit f0 ≠ []) as Hne0 by done.
  assert (toVisit f1 ≠ []) as Hne1 by (by rewrite Hq1).
  assert (toVisit f2 ≠ []) as Hne2 by (by rewrite Hq2).
  assert (toVisit f3 ≠ []) as Hne3 by (by rewrite Hq3).
  assert (forall fuel, (4 <= fuel)%nat ->
            take 4 (fetched (trace (final (CrawlDomain fuel s0 dom)).1))
            = [R; A; B; C]) as Hfour.
  { intros fuel Hfuel. do 4 (destruct fuel as [|fuel]; [lia |]).
    unfold CrawlDomain. fold f0.
    rewrite (loop_step _ s0 s1 f0 f1), (loop_step _ s1 s2 f1 f2),
      (loop_step _ s2 s3 f2 f3), (loop_step _ s3 s4 f3 f4) by done.
    destruct (fetched_prefix _ _ (loop_trace_grows fuel s4 f4)) as [more ->].
    by rewrite Hf4. }
  split; [| by intros _].
  intros fuel. destruct (decide (4 <= fuel)%nat) as [Hge | Hlt].
  { by rewrite Hfour. }
  unfold CrawlDomain. fold f0.
  destruct fuel as [|[|[|[|fuel]]]]; [| | | | lia].
  - rewrite loop_no_fuel. apply prefix_nil.
  - rewrite (loop_step _ s0 s1 f0 f1), loop_no_fuel by done.
    simpl. rewrite Hf1. by exists [A; B; C].
  - rewrite (loop_step _ s0 s1 f0 f1), (loop_step _ s1 s2 f1 f2), loop_no_fuel
      by done.
    simpl. rewrite Hf2. by exists [B; C].
  - rewrite (loop_step _ s0 s1 f0 f1), (loop_step _ s1 s2 f1 f2),
      (loop_step _ s2 s3 f2 f3), loop_no_fuel by done.
    simpl. rewrite Hf3. by exists [C].
Qed.

(** *** Termination *)


Lemma loop_returned (fuel : nat) (s s' : Shared) (f f' : Frame) :
  CrawlDomain_loop fuel s f = Returned s' f' -> toVisit f' = [].
Proof.
  revert s f. induction fuel as [|fuel IH]; intros s f; simpl.
  - destruct (toVisit f) eqn:Htv; [by intros [= <- <-] | done].
  - destruct (toVisit f) eqn:Htv; [by intros [= <- <-] |].
    destruct (iteration s f) as [[s1 f1] |]; [apply IH | done].
Qed.



End TraversalProperties.

(** ** Goroutines and the admission gate *)

Section GoroutineProperties.
Context {L : Library}.

Lemma fetch_parse_gate (s : Shared) (f : Frame) (u : string) :
  crawler (fetch_parse s f u).1 = crawler s.
Proof.
  unfold fetch_parse, do_Fetch. simpl.
  destruct (Fetch (world s) u) as [[html | e] w']; simpl; [| done].
  by destruct (ParseLinks html (baseURL f)).
Qed.

(** A step moves one token at most, and only between the semaphore and the
    goroutine that takes the step. *)
Lemma goroutine_step_token (s s' : Shared) (g g' : Goroutine) :
  goroutine_step s g = Some (s', g') ->
  chan_cap (semaphore (crawler s')) = chan_cap (semaphore (crawler s)) /\
  (chan_len (semaphore (crawler s')) + token_of g
   = chan_len (semaphore (crawler s)) + token_of g')%nat /\
  ((chan_len (semaphore (crawler s)) <= chan_cap (semaphore (crawler s)))%nat ->
   (chan_len (semaphore (crawler s')) <= chan_cap (semaphore (crawler s')))%nat).
Proof.
  destruct g as [f p], s as [[D R C P [cap len]] w t].
  unfold goroutine_step, token_of, holds_token. simpl.
  destruct p as [| | u | [|link links] | | |]; simpl.
  - destruct (toVisit f); [intros [= <- <-]; simpl; lia |].
    unfold acquire, chan_send. simpl. case_bool_decide; [| done].
    intros [= <- <-]. simpl. lia.
  - destruct (pop_check f) as [f1 [u|]]; intros [= <- <-]; simpl; lia.
  - match goal with |- context [fetch_parse ?a f u] =>
      pose proof (fetch_parse_gate a f u) as Hg;
      destruct (fetch_parse a f u) as [s2 r] end.
    simpl in Hg. intros [= <- <-]. rewrite Hg. destruct r; simpl; lia.
  - intros [= <- <-]. simpl. lia.
  - destruct (IsProductURL link); [| destruct (negb (visited_get f link))];
      intros [= <- <-]; simpl; lia.
  - intros [= <- <-]. simpl. lia.
  - unfold release, chan_recv. simpl. destruct len as [|len]; [done |].
    intros [= <- <-]. simpl. lia.
  - done.
Qed.

(** Counting the goroutines that satisfy [p], before and after one of them
    is replaced. *)
Lemma count_insert (p : Goroutine -> bool) (l : list Goroutine) (i : nat)
    (g g' : Goroutine) :
  l !! i = Some g ->
  (length (filter (λ x, p x = true) (<[i := g']> l)) + (if p g then 1 else 0)
   = length (filter (λ x, p x = true) l) + (if p g' then 1 else 0))%nat.
Proof.
  intros Hi. pose proof (lookup_lt_Some _ _ _ Hi) as Hlt.
  rewrite insert_take_drop by done.
  rewrite <- (take_drop_middle l i g Hi) at 3.
  rewrite !filter_app, !filter_cons, !length_app.
  destruct (p g), (p g'); simpl; lia.
Qed.

Lemma tokens_held_insert (sys : System) (i : nat) (g g' : Goroutine) (s' : Shared) :
  goroutines sys !! i = Some g ->
  (tokens_held {| shared := s'; goroutines := <[i := g']> (goroutines sys) |}
   + token_of g = tokens_held sys + token_of g')%nat.
Proof. intros Hi. apply (count_insert holds_token _ _ _ _ Hi). Qed.

Lemma gate_inv_step (l : label) (sys sys' : System) :
  sys_step l sys sys' -> gate_inv sys ->
  gate_inv sys' /\
  chan_cap (semaphore (crawler (shared sys')))
  = chan_cap (semaphore (crawler (shared sys))).
Proof.
  intros Hstep [Hheld Hcap].
  destruct Hstep as [i sys g g' s' Hi Hg | i j sys gi gj Hij Hi Hj Hpi Hne Hpj Hfull].
  - destruct (goroutine_step_token _ _ _ _ Hg) as (Hc & Hl & Hle).
    pose proof (tokens_held_insert sys i g g' s' Hi) as Hins.
    unfold gate_inv. simpl. split; [split; [lia | auto] | done].
  - assert (<[i := {| frame := frame gi; at_pc := Acquired |}]> (goroutines sys)
              !! j = Some gj) as Hj' by (by rewrite list_lookup_insert_ne).
    pose proof (tokens_held_insert sys i gi
                  {| frame := frame gi; at_pc := Acquired |} (shared sys) Hi) as H1.
    pose proof (tokens_held_insert
                  {| shared := shared sys;
                     goroutines := <[i := {| frame := frame gi; at_pc := Acquired |}]>
                                     (goroutines sys) |}
                  j gj {| frame := frame gj; at_pc := AtLoop |}
                  (emit (emit (shared sys) EvRecv) EvSend) Hj') as H2.
    simpl in H2. unfold token_of, holds_token in H1, H2. rewrite Hpi in H1.
    rewrite Hpj in H2. simpl in H1, H2.
    unfold gate_inv. simpl. split; [split; [lia | done] | done].
Qed.

Lemma gate_inv_exec (sys sys' : System) (ls : list label) :
  exec sys ls sys' -> gate_inv sys ->
  gate_inv sys' /\
  chan_cap (semaphore (crawler (shared sys')))
  = chan_cap (semaphore (crawler (shared sys))).
Proof.
  induction 1 as [sys | l ls sys1 sys2 sys3 Hstep _ IH]; [done |].
  intros Hinv. destruct (gate_inv_step _ _ _ Hstep Hinv) as [Hinv2 Hcap2].
  destruct (IH Hinv2) as [Hinv3 Hcap3]. split; [done | congruence].
Qed.

Lemma spawn_holds_nothing (s : Shared) :
  tokens_held (RunCrawler_spawn s) = 0%nat.
Proof.
  unfold tokens_held, RunCrawler_spawn. simpl.
  induction (Domains (crawler s)) as [|d ds IH]; [done |].
  rewrite fmap_cons, filter_cons_False; [done |]. simpl. done.
Qed.

Lemma in_flight_holds (l : list Goroutine) :
  (length (filter (λ g, in_flight g = true) l)
   <= length (filter (λ g, holds_token g = true) l))%nat.
Proof.
  induction l as [|g l IH]; [done |].
  rewrite !filter_cons.
  assert (in_flight g = true -> holds_token g = true) as Himp
    by (unfold in_flight, holds_token; by destruct (at_pc g)).
  destruct (decide (in_flight g = true)) as [Hf | Hf].
  - rewrite decide_True by auto. simpl. lia.
  - destruct (decide (holds_token g = true)); simpl; lia.
Qed.

(** C7: a crawler made by [CreateNewCrawler] with limit [K] never has more
    than [K] tokens out, whatever the order in which its goroutines move:
    after any steps of any of them, the goroutines between their send and
    their receive are as many as the tokens in the semaphore, at most [K],
    and the goroutines inside [Fetch] are among them. *)
Theorem admission_bound (domains : list string) (rateLimit K : Z) (c : Crawler)
    (w : World) (ls : list label) (sys : System) :
  CreateNewCrawler domains rateLimit K = Some c ->
  exec (RunCrawler_spawn (start c w)) ls sys ->
  tokens_held sys = chan_len (semaphore (crawler (shared sys))) /\
  Z.of_nat (tokens_held sys) <= K /\
  (fetches_in_flight sys <= tokens_held sys)%nat.
Proof.
  unfold CreateNewCrawler, make_chan. case_bool_decide as HK; [done |].
  simpl. intros [= <-] Hexec.
  apply gate_inv_exec in Hexec as [[Hheld Hle] Hcap].
  2:{ split; [by rewrite spawn_holds_nothing | simpl; lia]. }
  simpl in Hcap. split; [done |]. split; [lia |]. apply in_flight_holds.
Qed.

(** *** The goroutine runs the loop of [CrawlDomain] *)

Lemma goroutine_run_step (n : nat) (s s' : Shared) (g g' : Goroutine) :
  goroutine_step s g = Some (s', g') ->
  goroutine_run (S n) s g = goroutine_run n s' g'.
Proof. intros Hg. simpl. by rewrite Hg. Qed.

Lemma goroutine_run_stuck (n : nat) (s : Shared) (g : Goroutine) :
  goroutine_step s g = None -> goroutine_run n s g = (s, g).
Proof. intros Hg. destruct n; simpl; [done |]. by rewrite Hg. Qed.

Lemma goroutine_run_app (n m : nat) (s : Shared) (g : Goroutine) :
  goroutine_run (n + m) s g =
  goroutine_run m (goroutine_run n s g).1 (goroutine_run n s g).2.
Proof.
  revert s g. induction n as [|n IH]; intros s g; [done |].
  simpl. destruct (goroutine_step s g) as [[s1 g1] |] eqn:Hg; [apply IH |].
  simpl. by rewrite goroutine_run_stuck.
Qed.

(** Ranging over the links, one step for each, then on to the sleep. *)
Lemma goroutine_run_links (links : list string) (s : Shared) (f : Frame) :
  goroutine_run (S (length links)) s {| frame := f; at_pc := Linking links |} =
  ((foldl process_link (s, f) links).1,
   {| frame := (foldl process_link (s, f) links).2; at_pc := Sleeping |}).
Proof.
  revert s f. induction links as [|link links IH]; intros s f; [done |].
  cbn [length foldl]. rewrite (goroutine_run_step _ s (process_link (s, f) link).1
    {| frame := f; at_pc := Linking (link :: links) |}
    {| frame := (process_link (s, f) link).2; at_pc := Linking links |}).
  - rewrite IH. by destruct (process_link (s, f) link).
  - unfold goroutine_step. cbn [frame at_pc].
    by destruct (process_link (s, f) link).
Qed.

Lemma release_step (s s' : Shared) (f : Frame) :
  release s = Some s' ->
  goroutine_step s {| frame := f; at_pc := Releasing |}
  = Some (s', {| frame := f; at_pc := AtLoop |}).
Proof. intros Hrel. unfold goroutine_step. cbn [frame at_pc]. by rewrite Hrel. Qed.

(** The steps of a goroutine from the loop test back to the loop test are
    one turn of the loop. *)
Lemma goroutine_run_iteration (s s' : Shared) (f f' : Frame) :
  toVisit f ≠ [] -> iteration s f = Some (s', f') ->
  exists n, goroutine_run n s {| frame := f; at_pc := AtLoop |}
            = (s', {| frame := f'; at_pc := AtLoop |}).
Proof.
  intros Hne. unfold iteration.
  destruct (acquire s) as [s1 |] eqn:Hacq; [| done]. simpl.
  assert (goroutine_step s {| frame := f; at_pc := AtLoop |}
          = Some (s1, {| frame := f; at_pc := Acquired |})) as H1.
  { unfold goroutine_step. simpl. destruct (toVisit f); [done |]. by rewrite Hacq. }
  destruct (pop_check f) as [f1 cur] eqn:Hpop.
  assert (goroutine_step s1 {| frame := f; at_pc := Acquired |}
          = Some (s1, {| frame := f1;
                         at_pc := match cur with
                                  | None => Releasing
                                  | Some u => Fetching u
                                  end |})) as H2.
  { unfold goroutine_step. simpl. by rewrite Hpop. }
  destruct cur as [u |].
  - destruct (fetch_parse s1 f1 u) as [s2 r] eqn:Hfp.
    assert (goroutine_step s1 {| frame := f1; at_pc := Fetching u |}
            = Some (s2, {| frame := f1;
                           at_pc := match r with
                                    | None => Releasing
                                    | Some links => Linking links
                                    end |})) as H3.
    { unfold goroutine_step. simpl. by rewrite Hfp. }
    destruct r as [links |].
    + destruct (foldl process_link (s2, f1) links) as [s3 f3] eqn:Hfold.
      destruct (release (sleep s3)) as [s4 |] eqn:Hrel; [| done]. simpl.
      intros [= <- <-]. exists (S (S (S (S (length links) + 2)))).
      rewrite (goroutine_run_step _ _ _ _ _ H1), (goroutine_run_step _ _ _ _ _ H2),
        (goroutine_run_step _ _ _ _ _ H3).
      rewrite goroutine_run_app, goroutine_run_links, Hfold.
      cbn [fst snd].
      by rewrite (goroutine_run_step 1 s3 (sleep s3)
                    {| frame := f3; at_pc := Sleeping |}
                    {| frame := f3; at_pc := Releasing |} eq_refl),
        (goroutine_run_step 0 _ _ _ _ (release_step _ _ f3 Hrel)).
    + destruct (release s2) as [s4 |] eqn:Hrel; [| done]. simpl.
      intros [= <- <-]. exists 4%nat.
      by rewrite (goroutine_run_step _ _ _ _ _ H1), (goroutine_run_step _ _ _ _ _ H2),
        (goroutine_run_step _ _ _ _ _ H3),
        (goroutine_run_step 0 _ _ _ _ (release_step _ _ f1 Hrel)).
  - destruct (release s1) as [s4 |] eqn:Hrel; [| done]. simpl.
    intros [= <- <-]. exists 3%nat.
    by rewrite (goroutine_run_step _ _ _ _ _ H1), (goroutine_run_step _ _ _ _ _ H2),
      (goroutine_run_step 0 _ _ _ _ (release_step _ _ f1 Hrel)).
Qed.

(** A call of [CrawlDomain] that returns is a goroutine that, left alone,
    reaches its end in the same state. *)
Lemma goroutine_run_loop (fuel : nat) (s s' : Shared) (f f' : Frame) :
  CrawlDomain_loop fuel s f = Returned s' f' ->
  exists n, goroutine_run n s {| frame := f; at_pc := AtLoop |}
            = (s', {| frame := f'; at_pc := Finished |}).
Proof.
  revert s f. induction fuel as [|fuel IH]; intros s f; simpl.
  - destruct (toVisit f) eqn:Htv; [| done]. intros [= <- <-].
    exists 1%nat. simpl. unfold goroutine_step. simpl. by rewrite Htv.
  - destruct (toVisit f) as [|u rest] eqn:Htv.
    { intros [= <- <-]. exists 1%nat. simpl. unfold goroutine_step. simpl.
      by rewrite Htv. }
    destruct (iteration s f) as [[s1 f1] |] eqn:Hit; [| done].
    intros Hrun. destruct (IH _ _ Hrun) as [n2 Hn2].
    destruct (goroutine_run_iteration s s1 f f1) as [n1 Hn1]; [by rewrite Htv | done |].
    exists (n1 + n2)%nat. by rewrite goroutine_run_app, Hn1.
Qed.

(** A schedule is an execution. *)
Lemma schedule_exec (order : list nat) (sys sys' : System) :
  schedule order sys = Some sys' -> exec sys (Run <$> order) sys'.
Proof.
  revert sys. induction order as [|i order IH]; intros sys; simpl.
  - intros [= <-]. apply exec_done.
  - unfold run_goroutine.
    destruct (goroutines sys !! i) as [g |] eqn:Hi; [| done]. simpl.
    destruct (goroutine_step (shared sys) g) as [[s1 g1] |] eqn:Hg; [| done].
    simpl. intros Hrest. eapply exec_step; [by eapply sys_run | by apply IH].
Qed.

(** *** A domain whose root cannot be fetched *)



(** Any step keeps the domain of its goroutine and writes no entry of the
    product index but that domain's. *)
Lemma goroutine_step_frame (s s' : Shared) (g g' : Goroutine) :
  goroutine_step s g = Some (s', g') ->
  domain (frame g') = domain (frame g) /\
  forall d, d ≠ domain (frame g) ->
    ProductURLs (crawler s') !! d = ProductURLs (crawler s) !! d.
Proof.
  destruct g as [f p]. unfold goroutine_step. simpl.
  destruct p as [| | u | [|link links] | | |]; try done.
  - destruct (toVisit f); [by intros [= <- <-] |].
    unfold acquire. destruct (chan_send _); [| done]. by intros [= <- <-].
  - unfold pop_check. destruct (toVisit f); [by intros [= <- <-] |].
    destruct (visited_get f s0); by intros [= <- <-].
  - pose proof (fetch_parse_gate s f u) as Hg.
    destruct (fetch_parse s f u) as [s2 r]. simpl in Hg.
    intros [= <- <-]. by rewrite Hg.
  - by intros [= <- <-].
  - unfold process_link. destruct (IsProductURL link).
    + intros [= <- <-]. simpl. split; [done |].
      intros d Hd. by rewrite lookup_insert_ne.
    + destruct (negb (visited_get f link)); by intros [= <- <-].
  - by intros [= <- <-].
  - unfold release. destruct (chan_recv _); [| done]. by intros [= <- <-].
Qed.






Lemma finished_or_not (l : list Goroutine) :
  Forall (λ g, at_pc g = Finished) l \/ exists g, g ∈ l /\ at_pc g ≠ Finished.
Proof.
  induction l as [|g l [IH | (g0 & Hin & Hne)]].
  - left. apply Forall_nil_2.
  - destruct (at_pc g) eqn:Hp;
      try (right; exists g; split; [apply list_elem_of_here | congruence]).
    left. by apply Forall_cons.
  - right. exists g0. split; [by apply list_elem_of_further | done].
Qed.





End GoroutineProperties.

(** * More of the package *)

(** ** [Fetch], [ParseLinks] and the helpers, at their edges *)

Section LeafEdges.
Context {L : Library}.

Lemma Fetch_world (w : World) (link : string) :
  (Fetch w link).2 = (http_Get w link).2.
Proof.
  unfold Fetch. destruct (http_Get w link) as [[resp | e] w']; [| done].
  case_bool_decide; [done |]. by destruct (NewDocumentFromReader (Body resp)).
Qed.


Lemma isSameDomain_bad_base (baseURL u e : string) :
  url_Parse baseURL = Err e -> isSameDomain baseURL u = false.
Proof. intros He. unfold isSameDomain. by rewrite He. Qed.

(** X2: a base address that does not parse yields no links at all, and no
    error either: every anchor resolves to the empty string, which is then
    refused. Of a document that parses, [ParseLinks] returns at most as many
    links as the document has anchors. *)
Theorem ParseLinks_bad_base (html baseURL e : string) :
  url_Parse baseURL = Err e ->
  ParseLinks html baseURL =
    match NewDocumentFromReader html with
    | Ok _ => Ok []
    | Err e' => Err e'
    end /\
  (forall href, resolveURL baseURL href = "") /\
  (forall base' links doc,
     NewDocumentFromReader html = Ok doc ->
     ParseLinks html base' = Ok links ->
     (length links <= length (Find_a_href doc))%nat).
Proof.
  intros He. split; [| split].
  - unfold ParseLinks. destruct (NewDocumentFromReader html) as [doc |]; [| done].
    f_equal. rewrite ParseLinks_each_foldl. simpl.
    induction (resolveURL baseURL <$> omap Attr_href (Find_a_href doc))
      as [|u l IH]; [done |].
    rewrite filter_cons_False; [done |].
    by rewrite (isSameDomain_bad_base _ _ _ He).
  - intros href. unfold resolveURL. by rewrite He.
  - intros base' links doc Hdoc. unfold ParseLinks. rewrite Hdoc.
    intros [= <-]. rewrite ParseLinks_each_foldl. simpl.
    etrans; [apply length_filter |]. rewrite length_fmap.
    generalize (Find_a_href doc). intros sels.
    induction sels as [|sel sels IH]; [done |].
    change (omap Attr_href (sel :: sels))
      with (match Attr_href sel with
            | Some y => y :: omap Attr_href sels
            | None => omap Attr_href sels
            end).
    destruct (Attr_href sel); simpl; lia.
Qed.

(** X3: [isSameDomain] does not depend on the order of its arguments, holds
    of an address and itself exactly when the address parses, and carries
    over from one pair to the next. *)
Theorem isSameDomain_equivalence (a b c : string) :
  isSameDomain a b = isSameDomain b a /\
  (isSameDomain a a = true <-> exists u, url_Parse a = Ok u) /\
  (isSameDomain a b && isSameDomain b c = true -> isSameDomain a c = true).
Proof.
  unfold isSameDomain. split; [| split].
  - destruct (url_Parse a) as [ua |], (url_Parse b) as [ub |]; try done.
    apply bool_decide_ext. split; congruence.
  - destruct (url_Parse a) as [ua |].
    + rewrite bool_decide_eq_true. split; [by exists ua | done].
    + split; [done | by intros [u ?]].
  - destruct (url_Parse a) as [ua |], (url_Parse b) as [ub |],
      (url_Parse c) as [uc |]; try done; simpl;
      rewrite ?andb_false_r; try done.
    rewrite andb_true_iff, !bool_decide_eq_true. intros [-> ->]. done.
Qed.

End LeafEdges.

Lemma append_assoc (a b c : string) : (a +:+ b) +:+ c = a +:+ b +:+ c.
Proof. induction a as [|x a IH]; [done |]. by rewrite !append_cons, IH. Qed.

(** X4: what surrounds a product address does not matter: an address that
    contains a product address is a product address, so a query or a
    fragment added to one, or a longer path under it, never turns it into a
    page to crawl. The empty address is not a product. *)
Theorem IsProductURL_extends (pre link post : string) :
  IsProductURL link = true ->
  IsProductURL (pre +:+ link +:+ post) = true /\ IsProductURL "" = false.
Proof.
  unfold IsProductURL. rewrite !MatchString_denotes.
  intros (pre' & m & post' & -> & Hm). split; [| done].
  exists (pre +:+ pre'), m, (post' +:+ post). split; [| done].
  by rewrite !append_assoc.
Qed.

(** ** The traversal of one domain, as a whole *)

Section RunProperties.
Context {L : Library}.

Lemma page_links_ParseLinks (w : World) (base u : string) (links : list string) :
  page_links w base u = Some links ->
  exists html, (Fetch w u).1 = Ok html /\ ParseLinks html base = Ok links.
Proof.
  unfold page_links. destruct (Fetch w u).1 as [html | e]; [| done].
  destruct (ParseLinks html base) as [links' | e] eqn:HP; [| done].
  intros [= ->]. by exists html.
Qed.

Lemma ParseLinks_same_domain (html base : string) (links : list string) :
  ParseLinks html base = Ok links ->
  Forall (λ link, isSameDomain base link = true) links.
Proof.
  unfold ParseLinks. destruct (NewDocumentFromReader html) as [doc |]; [| done].
  intros [= <-]. rewrite ParseLinks_each_foldl. simpl.
  apply Forall_forall. intros u Hu. by apply list_elem_of_filter in Hu as [? _].
Qed.

Lemma elem_of_concat {A : Type} (x : A) (ls : list (list A)) :
  x ∈ concat ls <-> exists l, l ∈ ls /\ x ∈ l.
Proof.
  induction ls as [|l ls IH]; simpl.
  - split; [by intros ?%elem_of_nil | by intros (l & ?%elem_of_nil & _)].
  - rewrite elem_of_app, IH. split.
    + intros [Hx | (l' & Hl & Hx)].
      * exists l. split; [apply list_elem_of_here | done].
      * exists l'. split; [by apply list_elem_of_further | done].
    + intros (l' & Hl & Hx). apply elem_of_cons in Hl as [-> | Hl]; [by left |].
      right. by exists l'.
Qed.

Lemma gate_events_app (t1 t2 : list event) :
  gate_events (t1 ++ t2) = gate_events t1 ++ gate_events t2.
Proof. apply omap_app. Qed.

Lemma sleeps_app (t1 t2 : list event) : sleeps (t1 ++ t2) = sleeps t1 ++ sleeps t2.
Proof. apply omap_app. Qed.

(** The four ways through the loop body, read in one. *)
Lemma turn_has_effect (s s' : Shared) (f f' : Frame) (u : string)
    (rest : list string) :
  turn s f u rest s' f' -> exists pages, turn_effect s f u rest s' f' pages.
Proof.
  intros [Hv Hvis Htv Hw HP Ht | e Hv HF Hvis Htv Hw HP Ht
          | html e Hv HF HPl Hvis Htv Hw HP Ht
          | html links Hv HF HPl Hvis Htv Hw Hrec Ho Hn Ht].
  1-3: exists []; split;
    rewrite ?Ht, ?parsed_app, ?gate_events_app, ?sleeps_app, ?fetched_app, ?Hv;
    simpl; rewrite ?app_nil_r, ?Fetch_world in *; try done;
    try apply Forall_nil_2; try lia;
    unfold enqueued_of; by rewrite ?filter_nil, ?app_nil_r.
  exists [links]. split;
    rewrite ?Ht, ?parsed_app, ?gate_events_app, ?sleeps_app, ?fetched_app, ?Hv;
    simpl; rewrite ?app_nil_r, ?Fetch_world in *; try done.
  - apply Forall_cons. split; [| apply Forall_nil_2]. split; [done |].
    unfold page_links. by rewrite HF, HPl.
  - rewrite Htv. unfold enqueued_of, visited_get. by rewrite Hvis.
  - destruct (decide (recorded_of links = [])) as [Hnil | Hsome]; [by apply Hn |].
    apply map_eq. intros d. destruct (decide (domain f = d)) as [<- | Hd].
    + rewrite lookup_insert_eq. unfold products_of in Hrec.
      destruct (ProductURLs (crawler s') !! domain f) as [entry |] eqn:He;
        simpl in Hrec; [by rewrite Hrec |].
      symmetry in Hrec. apply app_eq_nil in Hrec as [_ Hrec]. done.
    + rewrite lookup_insert_ne by done. apply Ho. congruence.
Qed.

Lemma run_inv_enter (s0 : Shared) (dom : string) :
  trace s0 = [] -> run_inv s0 dom s0 (CrawlDomain_enter dom).
Proof.
  intros Ht. split; rewrite ?Ht; simpl; try done.
  - by exists O.
  - intros u [Hu | Hu]; [by apply elem_of_nil in Hu |].
    apply list_elem_of_singleton in Hu. by left.
  - intros link [-> | [Hin _]]; [| by apply elem_of_nil in Hin].
    right. apply list_elem_of_here.
Qed.

Lemma run_inv_products (s0 s : Shared) (dom : string) (f : Frame) :
  run_inv s0 dom s f ->
  products_of s dom =
  products_of s0 dom ++ recorded_of (concat (parsed (trace s))).
Proof.
  intros Hinv. unfold products_of at 1. rewrite (run_map _ _ _ _ Hinv).
  destruct (decide (recorded_of (concat (parsed (trace s))) = [])) as [-> | _].
  - by rewrite app_nil_r.
  - by rewrite lookup_insert_eq.
Qed.

Lemma run_inv_turn (s0 s s' : Shared) (dom : string) (f f' : Frame) :
  run_inv s0 dom s f -> toVisit f ≠ [] ->
  iteration s f = Some (s', f') -> run_inv s0 dom s' f'.
Proof.
  intros Hinv Hne Hit.
  destruct (toVisit f) as [|u rest] eqn:Htv; [done |].
  destruct (iteration_turn s s' f f' u rest Htv Hit)
    as ((HD & HR & HC & Hsem) & Hd' & Hb' & _ & Hturn).
  destruct (turn_has_effect _ _ _ _ _ _ Hturn) as [pages Heff].
  pose proof (run_inv_products _ _ _ _ Hinv) as Hprod.
  destruct Hinv as [(HD0 & HR0 & HC0 & Hsem0) Hd Hb [n Htok] Hsl Hpg Hw Hseen
                      Hscope Hpend Hmap].
  destruct Heff as [Hp Hpages Hone Hg Hs Hwd Hf Hv Hq Hm].
  rewrite Htv in Hseen, Hpend.
  assert (Forall (λ link, isSameDomain ("https://" +:+ dom) link = true)
            (concat pages)) as Hscope'.
  { apply Forall_concat. eapply Forall_impl; [exact Hpages |].
    intros links [_ (html & _ & HP)%page_links_ParseLinks].
    rewrite <- Hb. by eapply ParseLinks_same_domain. }
  assert (forall v, visited_get f v = true -> visited_get f' v = true) as Hmono.
  { intros v Hvv. unfold visited_get in *. rewrite Hv.
    destruct (default false (visited f !! u)); [done |].
    rewrite visited_get_insert. by destruct (decide (u = v)). }
  assert (visited_get f' u = true) as Hu.
  { unfold visited_get in *. rewrite Hv.
    destruct (default false (visited f !! u)) eqn:Hvu; [done |].
    by rewrite visited_get_insert, decide_True. }
  split.
  - unfold same_gate. repeat split; congruence.
  - congruence.
  - congruence.
  - exists (S n). rewrite Hg, Htok.
    replace (S n) with (n + 1)%nat by lia. by rewrite replicate_add, concat_app.
  - rewrite Hs, Hsl, Hp, length_app, replicate_add. by rewrite HR0.
  - rewrite Hp, Hf, !length_app. lia.
  - rewrite Hwd, Hf, Hw. unfold requests. rewrite foldl_app.
    by destruct (visited_get f u).
  - intros v Hv'. rewrite Hp, concat_app. setoid_rewrite elem_of_app.
    assert (v ∈ fetched (trace s) \/ v ∈ u :: rest \/
            (v ∈ concat pages /\ IsProductURL v = false)) as [Hold | [Hold | Hnew]].
    { destruct Hv' as [Hv' | Hv'].
      - rewrite Hf in Hv'. apply elem_of_app in Hv' as [? | Hv']; [by left |].
        right. left. destruct (visited_get f u); [by apply elem_of_nil in Hv' |].
        apply list_elem_of_singleton in Hv' as ->. apply list_elem_of_here.
      - rewrite Hq in Hv'. apply elem_of_app in Hv' as [? | Hv'].
        + right. left. by apply list_elem_of_further.
        + right. right. unfold enqueued_of in Hv'.
          apply list_elem_of_filter in Hv'. tauto. }
    + destruct (Hseen v (or_introl Hold)) as [? | [? ?]]; [by left | right]. tauto.
    + destruct (Hseen v (or_intror Hold)) as [? | [? ?]]; [by left | right]. tauto.
    + right. tauto.
  - rewrite Hp, concat_app. by apply Forall_app.
  - intros link Hl. rewrite Hq.
    assert (link = "https://" +:+ dom \/
            (link ∈ concat (parsed (trace s)) /\ IsProductURL link = false) \/
            (link ∈ concat pages /\ IsProductURL link = false))
      as [Hold | [Hold | [Hin Hnp]]].
    { destruct Hl as [? | [Hin ?]]; [by left |].
      rewrite Hp, concat_app in Hin. apply elem_of_app in Hin as [? | ?]; tauto. }
    + destruct (Hpend link (or_introl Hold)) as [? | Hin]; [left; auto |].
      apply elem_of_cons in Hin as [-> | Hin]; [by left |].
      right. apply elem_of_app. by left.
    + destruct (Hpend link (or_intror Hold)) as [? | Hin]; [left; auto |].
      apply elem_of_cons in Hin as [-> | Hin]; [by left |].
      right. apply elem_of_app. by left.
    + destruct (visited_get f' link) eqn:Hvl; [by left |].
      right. apply elem_of_app. right. unfold enqueued_of.
      by apply list_elem_of_filter.
  - rewrite Hm, Hp, concat_app, recorded_of_app, Hd, Hprod.
    destruct (decide (recorded_of (concat pages) = [])) as [-> | Hnew].
    { by rewrite !app_nil_r. }
    rewrite decide_False by (intros [_ ?]%app_eq_nil; done).
    rewrite Hmap, <- app_assoc.
    destruct (decide (recorded_of (concat (parsed (trace s))) = [])); [done |].
    by rewrite insert_insert_eq.
Qed.

(** The facts hold wherever a traversal started on an empty trace stands. *)
Lemma run_inv_loop (dom : string) (s0 : Shared) (fuel : nat) :
  trace s0 = [] ->
  run_inv s0 dom (final (CrawlDomain fuel s0 dom)).1
    (final (CrawlDomain fuel s0 dom)).2.
Proof.
  intros Ht. unfold CrawlDomain.
  apply (loop_invariant (run_inv s0 dom)).
  - intros. by eapply run_inv_turn.
  - by apply run_inv_enter.
Qed.

(** X5: a traversal gives back every token it takes. Wherever it stands
    between two turns, its sends and receives on the semaphore alternate,
    starting with a send and ending with a receive, the semaphore holds
    what it held at the start, and the configuration of the crawler is
    untouched. *)
Theorem traversal_returns_tokens (c : Crawler) (w : World) (dom : string)
    (fuel : nat) :
  let '(s', _) := final (CrawlDomain fuel (start c w) dom) in
  semaphore (crawler s') = semaphore c /\
  Domains (crawler s') = Domains c /\
  RateLimit (crawler s') = RateLimit c /\
  Concurrency (crawler s') = Concurrency c /\
  exists n, gate_events (trace s') = concat (replicate n [true; false]).
Proof.
  pose proof (run_inv_loop dom (start c w) fuel eq_refl) as Hinv.
  destruct (final (CrawlDomain fuel (start c w) dom)) as [s' f'].
  destruct Hinv as [(HD & HR & HC & Hsem) _ _ Htok _ _ _ _ _ _ _]. simpl in *.
  by repeat split.
Qed.

(** X6: the politeness delay follows the pages that were parsed, not the
    requests: the traversal sleeps once, for [RateLimit], after ranging over
    the links of each parsed page, and not at all after a fetch or a parse
    that failed or after an address it discards. So it never sleeps more
    often than it requests. *)
Theorem sleep_per_parsed_page (c : Crawler) (w : World) (dom : string)
    (fuel : nat) :
  let '(s', _) := final (CrawlDomain fuel (start c w) dom) in
  sleeps (trace s') = replicate (length (parsed (trace s'))) (RateLimit c) /\
  (length (sleeps (trace s')) <= length (fetched (trace s')))%nat.
Proof.
  pose proof (run_inv_loop dom (start c w) fuel eq_refl) as Hinv.
  destruct (final (CrawlDomain fuel (start c w) dom)) as [s' f'].
  destruct Hinv as [_ _ _ _ Hsl Hpg _ _ _ _ _]. simpl in *.
  split; [done |]. by rewrite Hsl, length_replicate.
Qed.

(** X7: a traversal stays on its host and off the product pages. Every
    address it requests is the root of the domain, or a link that an
    earlier parsed page showed, that [isSameDomain] accepts for the root
    and that is not a product address. *)
Theorem requests_stay_on_host (c : Crawler) (w : World) (dom : string)
    (fuel : nat) :
  let '(s', _) := final (CrawlDomain fuel (start c w) dom) in
  forall u, u ∈ fetched (trace s') ->
    u = "https://" +:+ dom \/
    (u ∈ concat (parsed (trace s')) /\
     isSameDomain ("https://" +:+ dom) u = true /\
     IsProductURL u = false).
Proof.
  pose proof (run_inv_loop dom (start c w) fuel eq_refl) as Hinv.
  destruct (final (CrawlDomain fuel (start c w) dom)) as [s' f'].
  destruct Hinv as [_ _ _ _ _ _ _ Hseen Hscope _ _]. simpl in *.
  intros u Hu. destruct (Hseen u (or_introl Hu)) as [? | [Hin Hnp]]; [by left |].
  right. rewrite Forall_forall in Hscope. auto.
Qed.

(** X8: a traversal that returns has left nothing out. The addresses it
    requested are exactly the root and the links of the pages it parsed that
    are not product addresses. *)
Theorem returned_traversal_complete (c : Crawler) (w : World) (dom : string)
    (fuel : nat) (s' : Shared) (f' : Frame) :
  CrawlDomain fuel (start c w) dom = Returned s' f' ->
  forall link,
    link ∈ fetched (trace s') <->
    link = "https://" +:+ dom \/
    (link ∈ concat (parsed (trace s')) /\ IsProductURL link = false).
Proof.
  intros Hrun.
  pose proof (run_inv_loop dom (start c w) fuel eq_refl) as Hinv.
  pose proof (crawl_inv_loop dom (start c w) fuel eq_refl) as Hcrawl.
  pose proof (loop_returned _ _ _ _ _ Hrun) as Hempty.
  rewrite Hrun in Hinv, Hcrawl. simpl in Hinv, Hcrawl.
  destruct Hinv as [_ _ _ _ _ _ _ Hseen _ Hpend _].
  destruct Hcrawl as [_ _ Hfc _ Hvis _ _ _].
  intros link. split.
  - intros Hin. apply Hseen. by left.
  - intros Hl. destruct (Hpend link Hl) as [Hv | Hin].
    + rewrite Hfc. by apply Hvis.
    + rewrite Hempty in Hin. by apply elem_of_nil in Hin.
Qed.

(** X9: on a finite site a traversal makes no more requests than the site
    has addresses, and requests none outside it. *)
Theorem requests_bounded_by_site (c : Crawler) (w : World) (dom : string)
    (U : gset string) (fuel : nat) :
  closed_site ("https://" +:+ dom) U ->
  let '(s', _) := final (CrawlDomain fuel (start c w) dom) in
  (forall u, u ∈ fetched (trace s') -> u ∈ U) /\
  (length (fetched (trace s')) <= size U)%nat.
Proof.
  intros [Hroot Hclosed].
  pose proof (crawl_inv_loop dom (start c w) fuel eq_refl) as Hcrawl.
  assert (let sf := final (CrawlDomain fuel (start c w) dom) in
          baseURL sf.2 = "https://" +:+ dom /\
          Forall (λ u, u ∈ U) (toVisit sf.2) /\
          Forall (λ u, u ∈ U) (fetched (trace sf.1))) as Hin.
  { unfold CrawlDomain.
    apply (loop_invariant (λ s f,
             baseURL f = "https://" +:+ dom /\
             Forall (λ u, u ∈ U) (toVisit f) /\
             Forall (λ u, u ∈ U) (fetched (trace s)))).
    - intros s f s1 f1 (Hb & HtoV & Hf) Hne Hit.
      destruct (toVisit f) as [|u rest] eqn:Htv; [done |].
      destruct (iteration_turn s s1 f f1 u rest Htv Hit) as (_ & _ & Hb' & _ & Hturn).
      destruct (turn_has_effect _ _ _ _ _ _ Hturn) as [pages Heff].
      destruct Heff as [_ Hpages _ _ _ _ Hfe _ Hq _].
      apply Forall_cons in HtoV as [Hu HtoV].
      split; [congruence |]. split.
      + rewrite Hq. apply Forall_app. split; [done |].
        apply Forall_forall. intros v Hv. unfold enqueued_of in Hv.
        apply list_elem_of_filter in Hv as [_ Hv].
        apply elem_of_concat in Hv as (links & Hlinks & Hv).
        rewrite Forall_forall in Hpages. destruct (Hpages links Hlinks) as [_ Hpl].
        rewrite Hb in Hpl. by eapply Hclosed.
      + rewrite Hfe. apply Forall_app. split; [done |].
        destruct (visited_get f u); [apply Forall_nil_2 |].
        by apply Forall_cons.
    - simpl. split; [done |]. split; [| apply Forall_nil_2].
      apply Forall_cons. split; [done | apply Forall_nil_2]. }
  destruct (final (CrawlDomain fuel (start c w) dom)) as [s' f'].
  simpl in Hin, Hcrawl. destruct Hin as (_ & _ & Hf).
  destruct Hcrawl as [_ _ Hfc Hnd _ _ _ _]. rewrite <- Hfc in Hnd.
  rewrite Forall_forall in Hf. split; [done |].
  change (size U) with (length (elements U)).
  apply submseteq_length, NoDup_submseteq; [done |].
  intros u Hu. apply elem_of_elements. auto.
Qed.

(** X10: a traversal does nothing to the network but its requests: the
    network it leaves is the one that results from a GET for each address
    of its trace of requests, in order, and from nothing else. *)
Theorem network_sees_only_requests (c : Crawler) (w : World) (dom : string)
    (fuel : nat) :
  let '(s', _) := final (CrawlDomain fuel (start c w) dom) in
  world s' = requests w (fetched (trace s')).
Proof.
  pose proof (run_inv_loop dom (start c w) fuel eq_refl) as Hinv.
  destruct (final (CrawlDomain fuel (start c w) dom)) as [s' f'].
  by destruct Hinv as [_ _ _ _ _ _ Hw _ _ _ _].
Qed.

(** X11: what a traversal leaves in the product index. If no parsed page
    showed a product link the index is the one it found, so a domain
    without products gets no entry, not an empty one. Otherwise the entry
    of the domain is the old entry followed by the product links in the
    order they were met, and every other entry is as it was. *)
Theorem index_after_traversal (c : Crawler) (w : World) (dom : string)
    (fuel : nat) :
  let '(s', _) := final (CrawlDomain fuel (start c w) dom) in
  let found := recorded_of (concat (parsed (trace s'))) in
  ProductURLs (crawler s') =
    (if decide (found = []) then ProductURLs c
     else <[dom := default [] (ProductURLs c !! dom) ++ found]> (ProductURLs c)) /\
  (forall d, d ≠ dom -> ProductURLs (crawler s') !! d = ProductURLs c !! d) /\
  (ProductURLs (crawler s') !! dom = None <->
   ProductURLs c !! dom = None /\ found = []).
Proof.
  pose proof (run_inv_loop dom (start c w) fuel eq_refl) as Hinv.
  destruct (final (CrawlDomain fuel (start c w) dom)) as [s' f'].
  destruct Hinv as [_ _ _ _ _ _ _ _ _ _ Hmap]. simpl in *.
  unfold products_of in Hmap. simpl in Hmap. rewrite Hmap.
  destruct (decide (recorded_of (concat (parsed (trace s'))) = [])) as [Hnil | Hsome].
  - split; [done |]. split; [done |]. tauto.
  - split; [done |]. split.
    + intros d Hd. by rewrite lookup_insert_ne.
    + rewrite lookup_insert_eq. split; [done | tauto].
Qed.

End RunProperties.

(** ** The goroutines of [RunCrawler], as a whole *)

Section SystemProperties.
Context {L : Library}.

Lemma elem_of_insert_inv {A : Type} (l : list A) (i : nat) (x y : A) :
  x ∈ <[i := y]> l -> x = y \/ x ∈ l.
Proof.
  intros [k Hk]%list_elem_of_lookup. destruct (decide (i = k)) as [<- | Hne].
  - destruct (decide (i < length l)%nat) as [Hlt | Hge].
    + rewrite list_lookup_insert_eq in Hk by done. left. congruence.
    + rewrite list_insert_ge in Hk by lia. right. by eapply list_elem_of_lookup_2.
  - rewrite list_lookup_insert_ne in Hk by done. right.
    by eapply list_elem_of_lookup_2.
Qed.

Lemma elem_of_insert_other {A : Type} (l : list A) (i : nat) (g x y : A) :
  l !! i = Some g -> x ∈ l -> x = g \/ x ∈ <[i := y]> l.
Proof.
  intros Hi [k Hk]%list_elem_of_lookup. destruct (decide (i = k)) as [<- | Hne].
  - left. congruence.
  - right. apply list_elem_of_lookup. exists k. by rewrite list_lookup_insert_ne.
Qed.

(** What one step of a goroutine does to its frame and to the index: the
    frame keeps its domain and root, the links it ranges over stay links of
    its host, and the index is left alone or gets one product link of that
    host, appended to the entry of the domain. *)
Lemma goroutine_step_index (s s' : Shared) (g g' : Goroutine) :
  goroutine_step s g = Some (s', g') ->
  match at_pc g with
  | Linking links =>
      Forall (λ link, isSameDomain (baseURL (frame g)) link = true) links
  | _ => True
  end ->
  domain (frame g') = domain (frame g) /\
  baseURL (frame g') = baseURL (frame g) /\
  match at_pc g' with
  | Linking links =>
      Forall (λ link, isSameDomain (baseURL (frame g)) link = true) links
  | _ => True
  end /\
  (ProductURLs (crawler s') = ProductURLs (crawler s) \/
   exists link,
     IsProductURL link = true /\
     isSameDomain (baseURL (frame g)) link = true /\
     ProductURLs (crawler s') =
       <[domain (frame g) :=
           default [] (ProductURLs (crawler s) !! domain (frame g)) ++ [link]]>
         (ProductURLs (crawler s))).
Proof.
  destruct g as [f p]. unfold goroutine_step. cbn [frame at_pc].
  destruct p as [| | u | [|link links] | | |]; try done.
  - destruct (toVisit f); [intros [= <- <-]; by (repeat split; auto) |].
    unfold acquire. destruct (chan_send _); [| done]. intros [= <- <-]. by (repeat split; auto).
  - unfold pop_check. destruct (toVisit f); [intros [= <- <-]; by (repeat split; auto) |].
    destruct (visited_get f s0); intros [= <- <-]; by (repeat split; auto).
  - intros Hstep _. unfold fetch_parse, do_Fetch in Hstep. simpl in Hstep.
    destruct (Fetch (world s) u) as [[html | e] w']; simpl in Hstep.
    + destruct (ParseLinks html (baseURL f)) as [links | e] eqn:HP;
        simpl in Hstep; injection Hstep as <- <-; simpl; [| by (repeat split; auto)].
      split; [done |]. split; [done |]. split; [| by left].
      by eapply ParseLinks_same_domain.
    + injection Hstep as <- <-. simpl. by (repeat split; auto).
  - intros [= <- <-]. by (repeat split; auto).
  - intros Hstep Hall. apply Forall_cons in Hall as [Hlink Hall].
    unfold process_link in Hstep. destruct (IsProductURL link) eqn:Hp.
    + injection Hstep as <- <-. simpl. repeat split; auto.
      right. by exists link.
    + destruct (negb (visited_get f link)); injection Hstep as <- <-; by (repeat split; auto).
  - intros [= <- <-]. by (repeat split; auto).
  - unfold release. destruct (chan_recv _); [| done]. intros [= <- <-]. by (repeat split; auto).
Qed.

Lemma index_inv_step (l : label) (sys sys' : System) :
  sys_step l sys sys' -> index_inv sys -> index_inv sys'.
Proof.
  intros Hstep [Hgs Hidx].
  destruct Hstep as [i sys g g' s' Hi Hg | a b sys ga gb Hab Ha Hb Hpa Hne Hpb Hfull].
  - assert (g ∈ goroutines sys) as Hin by (by eapply list_elem_of_lookup_2).
    destruct (Hgs g Hin) as [Hbase Hlinks].
    destruct (goroutine_step_index _ _ _ _ Hg Hlinks) as (Hd & Hb & Hlinks' & Hmap).
    assert (forall d, (exists g0, g0 ∈ goroutines sys /\ domain (frame g0) = d) ->
              exists g0, g0 ∈ <[i := g']> (goroutines sys) /\ domain (frame g0) = d)
      as Hkeep.
    { intros d (g0 & Hg0 & Hd0).
      destruct (elem_of_insert_other _ i g g0 g' Hi Hg0) as [-> | Hin'].
      - exists g'. split; [| congruence].
        apply list_elem_of_lookup. exists i.
        apply list_lookup_insert_eq. by eapply lookup_lt_Some.
      - by exists g0. }
    split; simpl.
    + intros g0 Hg0. apply elem_of_insert_inv in Hg0 as [-> | Hg0]; [| by apply Hgs].
      rewrite Hd, Hb. split; [done |]. destruct (at_pc g'); auto.
    + intros d entry He.
      destruct Hmap as [Hsame | (link & Hp & Hsd & Hnew)].
      { rewrite Hsame in He. destruct (Hidx d entry He) as (Hex & Hnn & Hall).
        split; [by apply Hkeep | done]. }
      rewrite Hnew in He. destruct (decide (domain (frame g) = d)) as [<- | Hnd].
      * rewrite lookup_insert_eq in He. injection He as <-.
        split; [apply Hkeep; by exists g |].
        split; [by destruct (default [] _) |].
        apply Forall_app. split.
        -- destruct (ProductURLs (crawler (shared sys)) !! domain (frame g))
             as [old |] eqn:Hold; simpl; [| apply Forall_nil_2].
           by destruct (Hidx _ _ Hold) as (_ & _ & ?).
        -- apply Forall_cons. split; [| apply Forall_nil_2].
           split; [done |]. by rewrite <- Hbase.
      * rewrite lookup_insert_ne in He by done.
        destruct (Hidx d entry He) as (Hex & Hnn & Hall).
        split; [by apply Hkeep | done].
  - split; simpl.
    + intros g0 Hg0. apply elem_of_insert_inv in Hg0 as [-> | Hg0].
      { destruct (Hgs gb ltac:(by eapply list_elem_of_lookup_2)) as [? _]. done. }
      apply elem_of_insert_inv in Hg0 as [-> | Hg0]; [| by apply Hgs].
      destruct (Hgs ga ltac:(by eapply list_elem_of_lookup_2)) as [? _]. done.
    + intros d entry He. destruct (Hidx d entry He) as ((g0 & Hg0 & Hd0) & Hnn & Hall).
      split; [| done].
      assert (<[a := {| frame := frame ga; at_pc := Acquired |}]> (goroutines sys)
                !! b = Some gb) as Hb' by (by rewrite list_lookup_insert_ne).
      destruct (elem_of_insert_other _ a ga g0
                  {| frame := frame ga; at_pc := Acquired |} Ha Hg0) as [-> | Hin1].
      * exists {| frame := frame ga; at_pc := Acquired |}. split; [| done].
        apply list_elem_of_lookup. exists a.
        rewrite list_lookup_insert_ne by done.
        apply list_lookup_insert_eq. by eapply lookup_lt_Some.
      * destruct (elem_of_insert_other _ b gb g0
                    {| frame := frame gb; at_pc := AtLoop |} Hb' Hin1) as [-> | Hin2].
        -- exists {| frame := frame gb; at_pc := AtLoop |}. split; [| done].
           apply list_elem_of_lookup. exists b.
           apply list_lookup_insert_eq. rewrite length_insert.
           by eapply lookup_lt_Some.
        -- by exists g0.
Qed.

Lemma index_inv_exec (ls : list label) (sys sys' : System) :
  exec sys ls sys' -> index_inv sys -> index_inv sys'.
Proof.
  induction 1 as [sys | l ls sys1 sys2 sys3 Hstep _ IH]; [done |].
  intros Hinv. apply IH. by eapply index_inv_step.
Qed.

Lemma index_inv_spawn (s : Shared) :
  ProductURLs (crawler s) = ∅ -> index_inv (RunCrawler_spawn s).
Proof.
  intros Hempty. split; simpl.
  - intros g (d & -> & _)%list_elem_of_fmap. done.
  - intros d entry He. by rewrite Hempty, lookup_empty in He.
Qed.

(** The goroutines of a run are those started, in their order, each with
    its domain. *)
Lemma exec_domain_list (ls : list label) (sys sys' : System) :
  exec sys ls sys' ->
  (λ g, domain (frame g)) <$> goroutines sys'
  = (λ g, domain (frame g)) <$> goroutines sys.
Proof.
  induction 1 as [sys | l ls sys1 sys2 sys3 Hstep _ IH]; [done |].
  rewrite IH. clear IH.
  destruct Hstep as [i sys g g' s' Hi Hg | a b sys ga gb Hab Ha Hb Hpa Hne Hpb Hfull];
    simpl; rewrite !list_fmap_insert.
  - destruct (goroutine_step_frame _ _ _ _ Hg) as [-> _].
    apply list_insert_id. by rewrite list_lookup_fmap, Hi.
  - simpl. rewrite (list_insert_id _ a) by (by rewrite list_lookup_fmap, Ha).
    apply list_insert_id. by rewrite list_lookup_fmap, Hb.
Qed.

Lemma goroutine_step_baseURL (s s' : Shared) (g g' : Goroutine) :
  goroutine_step s g = Some (s', g') ->
  baseURL (frame g') = baseURL (frame g).
Proof.
  destruct g as [f p]. unfold goroutine_step. cbn [frame at_pc].
  destruct p as [| | u | [|link links] | | |]; try done.
  - destruct (toVisit f); [by intros [= <- <-] |].
    destruct (acquire s); [| done]. by intros [= <- <-].
  - unfold pop_check. destruct (toVisit f) as [|v vs]; [by intros [= <- <-] |].
    destruct (visited_get f v); by intros [= <- <-].
  - destruct (fetch_parse s f u). by intros [= <- <-].
  - by intros [= <- <-].
  - unfold process_link. destruct (IsProductURL link); [by intros [= <- <-] |].
    destruct (negb (visited_get f link)); by intros [= <- <-].
  - by intros [= <- <-].
  - destruct (release s); [| done]. by intros [= <- <-].
Qed.

(** X12: one traversal for each entry of [Domains]. However the goroutines
    are scheduled, the crawler runs as many traversals as [Domains] has
    entries, in that order, each on its own domain from first to last; a
    domain listed twice is crawled twice. *)
Theorem one_goroutine_per_domain (s : Shared) (ls : list label) (sys : System) :
  exec (RunCrawler_spawn s) ls sys ->
  (λ g, domain (frame g)) <$> goroutines sys = Domains (crawler s) /\
  length (goroutines sys) = length (Domains (crawler s)) /\
  Forall (λ g, baseURL (frame g) = "https://" +:+ domain (frame g)) (goroutines sys).
Proof.
  intros Hexec. pose proof (exec_domain_list _ _ _ Hexec) as Hdoms.
  simpl in Hdoms. rewrite <- list_fmap_compose in Hdoms.
  assert ((λ g, domain (frame g)) <$> goroutines sys = Domains (crawler s)) as Heq.
  { rewrite Hdoms. apply list_fmap_id. }
  split; [done |]. split; [by rewrite <- Heq, length_fmap |].
  assert (forall ls' sys1 sys2, exec sys1 ls' sys2 ->
            Forall (λ g, baseURL (frame g) = "https://" +:+ domain (frame g))
              (goroutines sys1) ->
            Forall (λ g, baseURL (frame g) = "https://" +:+ domain (frame g))
              (goroutines sys2)) as Hkeep.
  { induction 1 as [| l ls' sys1 sys2 sys3 Hstep _ IH]; [done |].
    intros Hall. apply IH. rewrite Forall_forall in Hall.
    apply Forall_forall. intros g0 Hg0.
    destruct Hstep as [i sys0 g g' s' Hi Hg | a b sys0 ga gb Hab Ha Hb Hpa Hne Hpb Hfull];
      simpl in Hg0.
    - apply elem_of_insert_inv in Hg0 as [-> | Hg0]; [| by apply Hall].
      destruct (goroutine_step_frame _ _ _ _ Hg) as [Hd _].
      rewrite Hd, (goroutine_step_baseURL _ _ _ _ Hg).
      apply Hall. by eapply list_elem_of_lookup_2.
    - apply elem_of_insert_inv in Hg0 as [-> | Hg0].
      { simpl. by apply (Hall gb), list_elem_of_lookup_2 with b. }
      apply elem_of_insert_inv in Hg0 as [-> | Hg0]; [| by apply Hall].
      simpl. by apply (Hall ga), list_elem_of_lookup_2 with a. }
  apply (Hkeep _ _ _ Hexec). simpl. apply Forall_fmap, Forall_forall. done.
Qed.

(** A step leaves the index alone or appends one link to the entry of the
    domain of its goroutine. *)
Lemma goroutine_step_appends (s s' : Shared) (g g' : Goroutine) :
  goroutine_step s g = Some (s', g') ->
  ProductURLs (crawler s') = ProductURLs (crawler s) \/
  exists link,
    ProductURLs (crawler s') =
      <[domain (frame g) :=
          default [] (ProductURLs (crawler s) !! domain (frame g)) ++ [link]]>
        (ProductURLs (crawler s)).
Proof.
  destruct g as [f p]. unfold goroutine_step. cbn [frame at_pc].
  destruct p as [| | u | [|link links] | | |]; try done.
  - destruct (toVisit f); [intros [= <- <-]; by left |].
    unfold acquire. destruct (chan_send _); [| done]. intros [= <- <-]. by left.
  - destruct (pop_check f). intros [= <- <-]. by left.
  - pose proof (fetch_parse_gate s f u) as Hg.
    destruct (fetch_parse s f u) as [s2 r]. simpl in Hg.
    intros [= <- <-]. left. by rewrite Hg.
  - intros [= <- <-]. by left.
  - unfold process_link. destruct (IsProductURL link).
    + intros [= <- <-]. right. by exists link.
    + destruct (negb (visited_get f link)); intros [= <- <-]; by left.
  - intros [= <- <-]. by left.
  - unfold release. destruct (chan_recv _); [| done]. intros [= <- <-]. by left.
Qed.

(** X13: the product index only grows. From any state of the crawler and
    along any execution, an entry is never removed, shortened or rewritten:
    what it held stays at its front, and what is added comes behind. *)
Theorem index_only_grows (ls : list label) (sys sys' : System) :
  exec sys ls sys' ->
  forall d entry, ProductURLs (crawler (shared sys)) !! d = Some entry ->
    exists more, ProductURLs (crawler (shared sys')) !! d = Some (entry ++ more).
Proof.
  induction 1 as [sys | l ls sys1 sys2 sys3 Hstep _ IH].
  { intros d entry He. exists []. by rewrite app_nil_r. }
  intros d entry He.
  assert (exists more, ProductURLs (crawler (shared sys2)) !! d = Some (entry ++ more))
    as [more1 He2].
  { destruct Hstep as [i sys g g' s' Hi Hg | a b sys ga gb Hab Ha Hb Hpa Hne Hpb Hfull];
      simpl; [| exists []; by rewrite app_nil_r].
    destruct (goroutine_step_appends _ _ _ _ Hg) as [-> | (link & ->)];
      [exists []; by rewrite app_nil_r |].
    destruct (decide (domain (frame g) = d)) as [<- | Hnd].
    - rewrite lookup_insert_eq, He. by exists [link].
    - rewrite lookup_insert_ne by done. exists []. by rewrite app_nil_r. }
  destruct (IH d _ He2) as [more2 He3].
  exists (more1 ++ more2). by rewrite app_assoc.
Qed.

(** X14: the entries do not mix. In a crawler made by [CreateNewCrawler],
    whatever the order in which the goroutines move, an entry of the index
    is filed under one of the configured domains, is not empty, and holds
    only product addresses that [isSameDomain] accepts for the root of
    that domain. *)
Theorem index_entries_isolated (domains : list string) (rateLimit K : Z)
    (c : Crawler) (w : World) (ls : list label) (sys : System) :
  CreateNewCrawler domains rateLimit K = Some c ->
  exec (RunCrawler_spawn (start c w)) ls sys ->
  forall d entry, ProductURLs (crawler (shared sys)) !! d = Some entry ->
    d ∈ domains /\ entry ≠ [] /\
    Forall (λ u, IsProductURL u = true /\
                 isSameDomain ("https://" +:+ d) u = true) entry.
Proof.
  unfold CreateNewCrawler. destruct (make_chan K) as [ch |]; [| done]. simpl.
  intros [= <-] Hexec d entry He.
  match type of Hexec with exec (RunCrawler_spawn ?x) _ _ =>
    pose proof (index_inv_exec _ _ _ Hexec (index_inv_spawn x eq_refl)) as [_ Hidx]
  end.
  destruct (Hidx d entry He) as ((g & Hg & Hd) & Hnn & Hall).
  split; [| done].
  pose proof (exec_domain_list _ _ _ Hexec) as Hdoms. simpl in Hdoms.
  rewrite <- list_fmap_compose in Hdoms.
  assert (d ∈ (λ g, domain (frame g)) <$> goroutines sys) as Hin
    by (apply list_elem_of_fmap; by exists g).
  rewrite Hdoms in Hin. apply list_elem_of_fmap in Hin as (d' & -> & ?). done.
Qed.

(** With a slot in the semaphore for whoever asks first, some goroutine can
    always move until all have returned. *)
Lemma sys_progress (sys : System) :
  gate_inv sys ->
  (0 < chan_cap (semaphore (crawler (shared sys))))%nat ->
  RunCrawler_returned sys \/ exists i sys', sys_step (Run i) sys sys'.
Proof.
  intros [Hheld Hle] Hcap.
  destruct (filter (λ g, holds_token g = true) (goroutines sys)) as [|g hs] eqn:Hf.
  - unfold tokens_held in Hheld. rewrite Hf in Hheld. simpl in Hheld.
    destruct (finished_or_not (goroutines sys)) as [Hall | (g & Hin & Hne)];
      [by left | right].
    assert (holds_token g = false) as Hno.
    { apply not_true_is_false. intros Hh.
      assert (g ∈ filter (λ g, holds_token g = true) (goroutines sys)) as Hg
        by (by apply list_elem_of_filter).
      rewrite Hf in Hg. by apply elem_of_nil in Hg. }
    apply list_elem_of_lookup in Hin as [i Hi]. exists i.
    destruct g as [f p]. unfold holds_token in Hno. simpl in *.
    destruct p; try done.
    destruct (toVisit f) eqn:Htv.
    + eexists. eapply sys_run; [done |]. unfold goroutine_step. simpl.
      by rewrite Htv.
    + eexists. eapply sys_run; [done |].
      unfold goroutine_step, acquire, chan_send. simpl. rewrite Htv.
      by rewrite bool_decide_eq_true_2 by lia.
  - right.
    assert (g ∈ filter (λ g, holds_token g = true) (goroutines sys)) as Hg
      by (rewrite Hf; apply list_elem_of_here).
    apply list_elem_of_filter in Hg as [Hh Hin].
    apply list_elem_of_lookup in Hin as [i Hi]. exists i.
    unfold tokens_held in Hheld. rewrite Hf in Hheld. simpl in Hheld.
    destruct (goroutine_step (shared sys) g) as [[s' g'] |] eqn:Hstep;
      [eexists; by eapply sys_run |].
    exfalso. destruct g as [f p]. unfold holds_token in Hh.
    unfold goroutine_step in Hstep. cbn [frame at_pc] in *.
    destruct p as [| | u | [|link links] | | |]; try done.
    + by destruct (pop_check f).
    + by destruct (fetch_parse (shared sys) f u).
    + by destruct (process_link (shared sys, f) link).
    + unfold release, chan_recv in Hstep. rewrite <- Hheld in Hstep. done.
Qed.

(** X15: no deadlock. A crawler made with a concurrency of 1 or more, in
    whatever state its goroutines have brought it, either has returned from
    [RunCrawler] or has a goroutine that can take a step: the semaphore
    never leaves every goroutine waiting. *)
Theorem no_deadlock (domains : list string) (rateLimit K : Z) (c : Crawler)
    (w : World) (ls : list label) (sys : System) :
  CreateNewCrawler domains rateLimit K = Some c ->
  0 < K ->
  exec (RunCrawler_spawn (start c w)) ls sys ->
  RunCrawler_returned sys \/ exists i sys', sys_step (Run i) sys sys'.
Proof.
  unfold CreateNewCrawler, make_chan. case_bool_decide as HK; [done |].
  simpl. intros [= <-] Hpos Hexec.
  apply gate_inv_exec in Hexec as [Hgate Hcap].
  2:{ split; [by rewrite spawn_holds_nothing | simpl; lia]. }
  apply sys_progress; [done |]. rewrite Hcap. simpl. lia.
Qed.

(** X16: the edge values of the concurrency. A negative one makes
    [CreateNewCrawler] panic, and only a negative one. With 0 the crawler is
    made, but no goroutine ever takes a step: [RunCrawler] returns only if
    there is no domain to crawl, and blocks for ever otherwise. *)
Theorem concurrency_edges (domains : list string) (rateLimit K : Z) (w : World) :
  (CreateNewCrawler domains rateLimit K = None <-> K < 0) /\
  forall c ls sys,
    CreateNewCrawler domains rateLimit 0 = Some c ->
    exec (RunCrawler_spawn (start c w)) ls sys ->
    ls = [] /\ sys = RunCrawler_spawn (start c w) /\
    (RunCrawler_returned sys <-> domains = []).
Proof.
  split.
  { unfold CreateNewCrawler, make_chan. case_bool_decide; simpl; split; done. }
  intros c ls sys [= <-] Hexec.
  assert (forall l sys', ~ sys_step l
            (RunCrawler_spawn
               (start {| Domains := domains; RateLimit := rateLimit;
                         Concurrency := 0; ProductURLs := ∅;
                         semaphore := {| chan_cap := Z.to_nat 0; chan_len := 0 |} |}
                      w)) sys') as Hstuck.
  { intros l sys' Hstep. inversion Hstep as [i ? g g' s' Hi Hg | a b ? ga gb Hab Ha Hb Hpa Hne Hpb Hfull]; subst.
    - simpl in Hi. apply list_lookup_fmap_Some in Hi as (d & -> & _).
      by vm_compute in Hg.
    - simpl in Hb. apply list_lookup_fmap_Some in Hb as (d & -> & _). done. }
  inversion Hexec as [| l ls' ? sys2 ? Hstep Hrest]; subst.
  - split; [done |]. split; [done |]. unfold RunCrawler_returned. simpl.
    destruct domains as [|d ds]; [split; [done | intros _; apply Forall_nil_2] |].
    split; [| done]. intros Hall. by apply Forall_cons in Hall as [? _].
  - by apply Hstuck in Hstep.
Qed.

End SystemProperties.

(** ** Runs on the small web *)

Example toy_ParseLinks :
  ParseLinks (L := toy.library)
    "/list /product/1 https://other.test/p/9 /product/1 :bad /list"
    "https://shop.test"
  = Ok ["https://shop.test/list"; "https://shop.test/product/1";
        "https://shop.test/product/1"; "https://shop.test/list"].
Proof. reflexivity. Qed.

Example toy_resolveURL_bad_href :
  resolveURL (L := toy.library) "https://shop.test" ":bad" = "" /\
  isSameDomain (L := toy.library) "https://shop.test" ":bad" = false /\
  isSameDomain (L := toy.library) "https://shop.test" "https://other.test/p/9" = false.
Proof. by vm_compute. Qed.

Example toy_shop_products :
  products_of (final (CrawlDomain (L := toy.library) 5
                        (toy.crawler_of ["shop.test"] 1) "shop.test")).1 "shop.test"
  = ["https://shop.test/product/1"; "https://shop.test/product/1";
     "https://shop.test/product/1"; "https://shop.test/item/2";
     "https://shop.test/about?next=/p/5"].
Proof. by vm_compute. Qed.

(** The link graph of [cycle.test] is the root and [/b]. *)
Lemma cycle_site_closed :
  closed_site (L := toy.library) "https://cycle.test"
    {["https://cycle.test"; "https://cycle.test/b"]}.
Proof.
  split; [apply elem_of_union_l; by apply elem_of_singleton |].
  intros w u links Hu Hl link Hin.
  apply elem_of_union in Hu as [Hu | Hu]; apply elem_of_singleton in Hu; subst u;
    vm_compute in Hl; injection Hl as <-.
  - apply list_elem_of_singleton in Hin as ->.
    apply elem_of_union_r. by apply elem_of_singleton.
  - apply elem_of_cons in Hin as [-> | Hin].
    + apply elem_of_union_l. by apply elem_of_singleton.
    + apply list_elem_of_singleton in Hin as ->.
      apply elem_of_union_r. by apply elem_of_singleton.
Qed.

(** C4, as the specification states it, fails: the send comes first in the
    loop body, before the address is looked up. In the crawl of
    [shop.test] the address [/list] is in the frontier twice; when its second
    copy is reached it is in the visited set, and the turn that discards it
    sends on the semaphore and receives from it. *)
Lemma token_taken_for_visited_address :
  let o := CrawlDomain (L := toy.library) 2
             (toy.crawler_of ["shop.test"] 1) "shop.test" in
  toVisit (final o).2 = ["https://shop.test/list"] /\
  visited_get (final o).2 "https://shop.test/list" = true /\
  exists s' f',
    iteration (final o).1 (final o).2 = Some (s', f') /\
    trace s' = trace (final o).1 ++ [EvSend; EvRecv] /\
    EvSend ∈ drop (length (trace (final o).1)) (trace s').
Proof.
  cbn zeta. split; [by vm_compute |]. split; [by vm_compute |].
  eexists _, _. split; [by vm_compute |]. split; [by vm_compute |].
  vm_compute. apply list_elem_of_here.
Qed.

(** The same turn, by [visited_address_discarded]. *)
Lemma visited_address_discarded_shop :
  let o := CrawlDomain (L := toy.library) 2
             (toy.crawler_of ["shop.test"] 1) "shop.test" in
  if bool_decide (has_room (final o).1)
  then exists s' f',
         iteration (final o).1 (final o).2 = Some (s', f') /\
         trace s' = trace (final o).1 ++ [EvSend; EvRecv] /\
         semaphore (crawler s') = semaphore (crawler (final o).1) /\
         toVisit f' = [] /\ visited f' = visited (final o).2 /\
         world s' = world (final o).1 /\
         ProductURLs (crawler s') = ProductURLs (crawler (final o).1)
  else iteration (final o).1 (final o).2 = None.
Proof.
  intros o.
  apply (visited_address_discarded (final o).1 (final o).2
           "https://shop.test/list" []).
  - vm_compute. reflexivity.
  - vm_compute. reflexivity.
Defined.



(** [bfs.test]: the root links to [/a] and [/b], and [/a] to [/c]. *)
Lemma breadth_first_order_bfs :
  take 4 (fetched (trace (final (CrawlDomain (L := toy.library) 6
                                   (toy.crawler_of ["bfs.test"] 1)
                                   "bfs.test")).1))
  = ["https://bfs.test"; "https://bfs.test/a"; "https://bfs.test/b";
     "https://bfs.test/c"].
Proof.
  apply (breadth_first_order (L := toy.library)
           (toy.crawler_for ["bfs.test"] 1) [] "bfs.test"
           "https://bfs.test/a" "https://bfs.test/b" "https://bfs.test/c").
  - intros w. reflexivity.
  - intros w. reflexivity.
  - apply (bool_decide_unpack _). vm_compute. exact I.
  - reflexivity.
  - reflexivity.
  - reflexivity.
  - vm_compute. lia.
  - lia.
Defined.


(** Two domains and one token: the first goroutine has taken the token and
    fetched its root. *)
Lemma admission_bound_two_domains :
  let sys := toy.after [0; 0; 0]%nat
               (RunCrawler_spawn (toy.crawler_of ["bfs.test"; "shop.test"] 1))
  in
  tokens_held sys = chan_len (semaphore (crawler (shared sys))) /\
  Z.of_nat (tokens_held sys) <= 1 /\
  (fetches_in_flight sys <= tokens_held sys)%nat.
Proof.
  intros sys.
  apply (admission_bound (L := toy.library) ["bfs.test"; "shop.test"] 0 1
           (toy.crawler_for ["bfs.test"; "shop.test"] 1) []
           (Run <$> [0; 0; 0]%nat) sys).
  - reflexivity.
  - apply schedule_exec. vm_compute. reflexivity.
Defined.


(** *** Runs for the further properties *)

(** An address that starts with a colon does not parse. *)
Lemma ParseLinks_bad_base_colon :
  ParseLinks (L := toy.library) "/a /b" ":bad" =
    match @NewDocumentFromReader toy.library "/a /b" with
    | Ok _ => Ok []
    | Err e' => Err e'
    end /\
  (forall href, resolveURL (L := toy.library) ":bad" href = "") /\
  (forall base' links (doc : @Document toy.library),
     @NewDocumentFromReader toy.library "/a /b" = Ok doc ->
     ParseLinks (L := toy.library) "/a /b" base' = Ok links ->
     (length links <= length (@Find_a_href toy.library doc))%nat).
Proof.
  apply (ParseLinks_bad_base (L := toy.library) "/a /b" ":bad"
           "missing protocol scheme").
  reflexivity.
Defined.

(** A product address with a query before and a fragment behind. *)
Lemma IsProductURL_extends_item :
  IsProductURL ("https://x.com/go?to=" +:+ "/item/9" +:+ "#top") = true /\
  IsProductURL "" = false.
Proof. apply (IsProductURL_extends "https://x.com/go?to=" "/item/9" "#top"). reflexivity. Defined.

(** The traversal of [shop.test] returns after five turns; [/list] is among
    its requests as a link of the root that is no product. *)
Lemma returned_traversal_complete_shop :
  let o := CrawlDomain (L := toy.library) 5 (toy.crawler_of ["shop.test"] 1)
             "shop.test" in
  "https://shop.test/list" ∈ fetched (trace (final o).1) <->
  "https://shop.test/list" = "https://" +:+ "shop.test" \/
  ("https://shop.test/list" ∈ concat (parsed (trace (final o).1)) /\
   IsProductURL "https://shop.test/list" = false).
Proof.
  intros o.
  apply (returned_traversal_complete (L := toy.library)
           (toy.crawler_for ["shop.test"] 1) [] "shop.test" 5
           (final o).1 (final o).2).
  vm_compute. reflexivity.
Defined.

(** The cycle of [cycle.test] has two addresses. *)
Lemma requests_bounded_by_site_cycle :
  let '(s', _) := final (CrawlDomain (L := toy.library) 9
                           (toy.crawler_of ["cycle.test"] 1) "cycle.test") in
  (forall u, u ∈ fetched (trace s') ->
     u ∈ ({["https://cycle.test"; "https://cycle.test/b"]} : gset string)) /\
  (length (fetched (trace s'))
   <= size ({["https://cycle.test"; "https://cycle.test/b"]} : gset string))%nat.
Proof.
  apply (requests_bounded_by_site (L := toy.library)
           (toy.crawler_for ["cycle.test"] 1) [] "cycle.test"
           {["https://cycle.test"; "https://cycle.test/b"]} 9).
  apply cycle_site_closed.
Defined.

(** [shop.test] listed twice, with one step of each goroutine. *)
Lemma one_goroutine_per_domain_twice :
  let s := toy.crawler_of ["shop.test"; "bfs.test"; "shop.test"] 2 in
  let sys := toy.after [0; 2]%nat (RunCrawler_spawn s) in
  (λ g, domain (frame g)) <$> goroutines sys = Domains (crawler s) /\
  length (goroutines sys) = length (Domains (crawler s)) /\
  Forall (λ g, baseURL (frame g) = "https://" +:+ domain (frame g)) (goroutines sys).
Proof.
  intros s sys.
  apply (one_goroutine_per_domain (L := toy.library) s (Run <$> [0; 2]%nat) sys).
  apply schedule_exec. vm_compute. reflexivity.
Defined.

(** [shop.test] after its first product link, and two steps later. *)
Lemma index_only_grows_shop :
  let sys := toy.after [0; 0; 0; 0; 0]%nat
               (RunCrawler_spawn (toy.crawler_of ["shop.test"] 1)) in
  exists more,
    ProductURLs (crawler (shared (toy.after [0; 0]%nat sys))) !! "shop.test"
    = Some (["https://shop.test/product/1"] ++ more).
Proof.
  intros sys.
  apply (index_only_grows (L := toy.library) (Run <$> [0; 0]%nat) sys
           (toy.after [0; 0]%nat sys)).
  - apply schedule_exec. vm_compute. reflexivity.
  - vm_compute. reflexivity.
Defined.

(** Two domains; the goroutine of [shop.test] has recorded two links. *)
Lemma index_entries_isolated_shop :
  "shop.test" ∈ ["bfs.test"; "shop.test"] /\
  ["https://shop.test/product/1"; "https://shop.test/product/1"] ≠ [] /\
  Forall (λ u, IsProductURL u = true /\
               isSameDomain (L := toy.library) ("https://" +:+ "shop.test") u = true)
    ["https://shop.test/product/1"; "https://shop.test/product/1"].
Proof.
  apply (index_entries_isolated (L := toy.library) ["bfs.test"; "shop.test"] 0 2
           (toy.crawler_for ["bfs.test"; "shop.test"] 2) []
           (Run <$> [1; 0; 1; 1; 0; 1; 1; 1]%nat)
           (toy.after [1; 0; 1; 1; 0; 1; 1; 1]%nat
              (RunCrawler_spawn (toy.crawler_of ["bfs.test"; "shop.test"] 2)))).
  - reflexivity.
  - apply schedule_exec. vm_compute. reflexivity.
  - vm_compute. reflexivity.
Defined.

(** Two domains and one token, the token taken. *)
Lemma no_deadlock_one_token :
  let sys := toy.after [0; 0]%nat
               (RunCrawler_spawn (toy.crawler_of ["bfs.test"; "shop.test"] 1)) in
  RunCrawler_returned sys \/ exists i sys', sys_step (Run i) sys sys'.
Proof.
  intros sys.
  apply (no_deadlock (L := toy.library) ["bfs.test"; "shop.test"] 0 1
           (toy.crawler_for ["bfs.test"; "shop.test"] 1) []
           (Run <$> [0; 0]%nat) sys).
  - reflexivity.
  - lia.
  - apply schedule_exec. vm_compute. reflexivity.
Defined.
